(** * ServiceNow theme loader: the colour-scale generator and the theme resolver

    A shallow embedding of [ThemeParser] (parser.js), of the loading,
    caching and applying methods of [ServiceNowThemeLoader] (index.js) and of
    the [currentTheme] property of the theme switcher (theme-switcher.js),
    followed by the properties of the specification, stated and settled
    against that embedding, and by further properties of the code.

    How the JavaScript of the source is read:
    - Numbers are IEEE 754 binary64 values.  They are modelled by Rocq's
      primitive floats, whose operations are the same binary64 operations,
      so every rounding step of the source arithmetic is kept.  Loop
      counters, array indices and [points] are integers and are converted to
      a Number where the arithmetic uses them.
    - The conversions between strings and Numbers belong to the language
      runtime, not to the repository: they are a parameter ([JSRuntime]), and
      the properties that depend on them assume only how decimal integers of
      0..255 are read and printed ([JSRuntimeLaws]).
    - A parsed JSON document is a [value]: its objects have the prototype
      [Object.prototype] and all their properties are own data properties,
      a key [__proto__] included.
    - An object that the source creates with [{}] and fills by assignment is
      an [object]: its own properties, a [gmap], and its prototype.  An
      assignment goes through the prototype chain as in the language, so
      that a key [__proto__] replaces the prototype, or is ignored, instead
      of being stored, and a read of a role finds an inherited property.
      The order in which an object enumerates its keys is not kept.
    - The mapping of preloaded documents is an ordinary object: a path is
      looked up among its own properties and then among the members of
      [Object.prototype].
    - A call that can throw returns an [option]: [None] stands for the
      TypeError, or for the rejection of the promise.
    - The loader is a record that every method takes and returns.  Its cache,
      a [Map], is an association list in insertion order.  The network and
      the style of the document root are outside the repository: [fetch] and
      [setProperty] are variables of the sections that model the methods
      using them, and an asynchronous method is read as the sequence of its
      steps.  The loads of [loadThemeSet] run concurrently: there, what each
      path resolves to is a variable. *)

From Stdlib Require Import ZArith QArith Qround Floats Uint63 String Ascii List Lia.
From stdpp Require Import gmap strings list pretty.
Import ListNotations.

Set Warnings "-register-all".

Local Open Scope string_scope.
Local Open Scope list_scope.
Local Open Scope Z_scope.

(** ** JavaScript values *)

(** The values a parsed JSON document is made of, plus [undefined].  An
    object lists its own enumerable properties in enumeration order. *)
Inductive value : Type :=
| VUndefined
| VNull
| VBool (b : bool)
| VNum (x : float)
| VStr (s : string)
| VArr (items : list value)
| VObj (fields : list (string * value)).

(** [!!v] in the source: ToBoolean. *)
Definition truthy (v : value) : bool :=
  match v with
  | VUndefined | VNull => false
  | VBool b => b
  | VNum x => negb (PrimFloat.eqb x 0%float || PrimFloat.is_nan x)
  | VStr s => negb (String.eqb s "")
  | VArr _ | VObj _ => true
  end.

Definition typeof (v : value) : string :=
  match v with
  | VUndefined => "undefined"
  | VNull | VArr _ | VObj _ => "object"
  | VBool _ => "boolean"
  | VNum _ => "number"
  | VStr _ => "string"
  end.

Definition is_nullish (v : value) : bool :=
  match v with VUndefined | VNull => true | _ => false end.

(** The own enumerable string-keyed properties of a value, as
    [Object.entries] and [Object.assign] enumerate them: the fields of an
    object, the indices of an array, the characters of a string, nothing for
    the other primitives. *)
Definition own_entries (v : value) : list (string * value) :=
  match v with
  | VObj fields => fields
  | VArr items => imap (fun (i : nat) x => (pretty i, x)) items
  | VStr s =>
      imap (fun (i : nat) c => (pretty i, VStr (String c EmptyString)))
           (list_ascii_of_string s)
  | _ => []
  end.

Fixpoint assoc (k : string) (fields : list (string * value)) : option value :=
  match fields with
  | [] => None
  | (k', v) :: rest => if String.eqb k k' then Some v else assoc k rest
  end.

(** [v.name] for the two names the source reads, [base] and [properties]:
    reading a property of [undefined] or [null] throws a TypeError ([None]);
    arrays and primitives have no property of either name. *)
Definition get_prop (v : value) (name : string) : option value :=
  match v with
  | VUndefined | VNull => None
  | VObj fields => Some (default VUndefined (assoc name fields))
  | _ => Some VUndefined
  end.

(** [Object.entries(v)]: throws on [undefined] and [null]. *)
Definition Object_entries (v : value) : option (list (string * value)) :=
  if is_nullish v then None else Some (own_entries v).

(** The prototype of an object that the source creates with [{}].  It
    is [Object.prototype] at first; an assignment to the property
    [__proto__] can replace it by [null] or by an object or array of a
    document. *)
Inductive prototype : Type :=
| Object_prototype
| Null_prototype
| Document_prototype (p : value).

(** An object that the source creates and fills: its own properties, used as
    a mapping from names to values, and its prototype. *)
Record object : Type := { own : gmap string value; proto : prototype }.

(** [{}]. *)
Definition new_object : object := {| own := ∅; proto := Object_prototype |}.

(** A lookup of [__proto__] along the prototype chain does not arrive at the
    accessor of [Object.prototype]: the chain ends in [null] before it, or
    the document that is the prototype has a property of that name itself
    (an own data property, as [JSON.parse] creates it). *)
Definition hides_accessor (p : prototype) : bool :=
  match p with
  | Object_prototype => false
  | Null_prototype => true
  | Document_prototype (VObj fields) =>
      match assoc "__proto__" fields with Some _ => true | None => false end
  | Document_prototype _ => false
  end.

(** The setter of [Object.prototype.__proto__]: an object or [null] becomes
    the prototype, a value of any other type is ignored. *)
Definition set_prototype (o : object) (v : value) : object :=
  match v with
  | VObj _ | VArr _ => {| own := own o; proto := Document_prototype v |}
  | VNull => {| own := own o; proto := Null_prototype |}
  | _ => o
  end.

(** [o[key] = v].  The property is created or updated on the object itself,
    except for [__proto__] on an object that has no own property of that name
    and inherits the accessor: the setter is called instead. *)
Definition Set_property (o : object) (key : string) (v : value) : object :=
  if String.eqb key "__proto__"
     && match own o !! key with Some _ => false | None => true end
     && negb (hides_accessor (proto o))
  then set_prototype o v
  else {| own := <[key := v]> (own o); proto := proto o |}.

(** [o[key]] for a key that is not a member of a built-in prototype, nor an
    array index or [length], as the names of the colour roles are: the own
    property, or else the property of the document that is the prototype. *)
Definition Get_property (o : object) (key : string) : value :=
  match own o !! key with
  | Some v => v
  | None =>
      match proto o with
      | Document_prototype (VObj fields) => default VUndefined (assoc key fields)
      | _ => VUndefined
      end
  end.

(** [Object.assign(target, source)]: every own property of the source is
    assigned to the target in turn. *)
Definition Object_assign (target : object) (source : value) : object :=
  foldl (fun o kv => Set_property o kv.1 kv.2) target (own_entries source).

(** [key.startsWith('--')]. *)
Definition startsWith (s pre : string) : bool := String.prefix pre s.

(** [s.split(',')]: the pieces between the separators, always at least one. *)
Fixpoint split (sep : ascii) (s : string) : list string :=
  match s with
  | EmptyString => [EmptyString]
  | String c rest =>
      if Ascii.eqb c sep then EmptyString :: split sep rest
      else match split sep rest with
           | piece :: pieces => String c piece :: pieces
           | [] => [String c EmptyString]
           end
  end.

(** ** Numbers *)

(** The Number whose value is the integer [n]; exact for |n| <= 2^53. *)
Definition float_of_Z (n : Z) : float :=
  if n <? 0 then PrimFloat.opp (PrimFloat.of_uint63 (Uint63.of_Z (- n)))
  else PrimFloat.of_uint63 (Uint63.of_Z n).

(** The integer a Number stands for, when it is finite and integral
    (both zeros stand for 0). *)
Definition float_integer (x : float) : option Z :=
  match Prim2SF x with
  | S754_zero _ => Some 0
  | S754_finite s m e =>
      let sgn := if s then (-1) else 1 in
      if 0 <=? e then Some (sgn * (Z.pos m * 2 ^ e))
      else if Z.pos m mod 2 ^ (- e) =? 0
           then Some (sgn * (Z.pos m / 2 ^ (- e)))
           else None
  | _ => None
  end.

(** [Math.round]: NaN, the infinities, the zeros and integral Numbers are
    returned as they are; any other Number [x] becomes floor(x + 1/2), taken
    over the reals, with -0 for a negative [x] that rounds to zero. *)
Definition Math_round (x : float) : float :=
  match Prim2SF x with
  | S754_finite s m e =>
      if 0 <=? e then x
      else
        let sm := if s then Z.neg m else Z.pos m in
        let n := (2 * sm + 2 ^ (- e)) / 2 ^ (1 - e) in
        if n =? 0 then (if s then (-0)%float else 0%float)
        else float_of_Z n
  | _ => x
  end.

(** The two conversions of the language runtime between strings and Numbers
    that the source relies on: [Number(s)] applied to a string, and the
    ToString of a Number inside a template literal. *)
Class JSRuntime := {
  js_Number : string -> float;
  js_ToString : float -> string
}.

(** What the proofs use of them: a channel written as a decimal integer of
    0..255 converts to that integer, and a Number whose value is an integer
    of 0..255 prints as its decimal digits. *)
Record JSRuntimeLaws (RT : JSRuntime) : Prop := {
  Number_decimal :
    forall n : Z, 0 <= n <= 255 -> js_Number (pretty n) = float_of_Z n;
  ToString_integer :
    forall (x : float) (n : Z),
      float_integer x = Some n -> 0 <= n <= 255 -> js_ToString x = pretty n
}.

(** A runtime for evaluating the model on concrete documents.  It is the
    JavaScript one on unsigned decimal digit strings and on integral Numbers;
    the empty string converts to 0 as in JavaScript, and whatever else lies
    outside of them is answered by NaN. *)
Definition is_digit (c : ascii) : bool :=
  ((48 <=? nat_of_ascii c) && (nat_of_ascii c <=? 57))%nat.

Fixpoint digits_value (acc : Z) (s : string) : option Z :=
  match s with
  | EmptyString => Some acc
  | String c rest =>
      if is_digit c
      then digits_value (10 * acc + (Z.of_nat (nat_of_ascii c) - 48)) rest
      else None
  end.

Definition decimal_Number (s : string) : float :=
  match s with
  | EmptyString => 0%float
  | _ => match digits_value 0 s with
         | Some n => float_of_Z n
         | None => nan
         end
  end.

Definition integral_ToString (x : float) : string :=
  match float_integer x with
  | Some n => pretty n
  | None => "NaN"
  end.

Definition decimal_runtime : JSRuntime :=
  {| js_Number := decimal_Number; js_ToString := integral_ToString |}.

(** ** ThemeParser.generateColorScale *)

Section ColorScale.
Context {RT : JSRuntime}.

(** A destructured channel: the Number at that position of the parsed
    list, or [undefined] when the list is shorter. *)
Definition channel : Type := option float.

(** ToNumber of a channel used in arithmetic: [undefined] becomes NaN. *)
Definition num (c : channel) : float :=
  match c with Some x => x | None => nan end.

(** A channel interpolated into a template literal. *)
Definition show (c : channel) : string :=
  match c with Some x => js_ToString x | None => "undefined" end.

(** The template [`${x},${y},${z}`]. *)
Definition rgb (x y z : string) : string := x +:+ "," +:+ y +:+ "," +:+ z.

(** The literals [0.80] and [0.65] denote the nearest binary64 values. *)
Definition shade2 : float := 0x1.999999999999ap-1%float.
Definition shade3 : float := 0x1.4cccccccccccdp-1%float.
Definition tint : float := 0.25%float.
Definition midPoint : float := 0.5%float.

Definition lighten (c : channel) : float :=
  Math_round (num c + (255 - num c) * tint)%float.

Definition darken (shade : float) (c : channel) : float :=
  Math_round (num c * shade)%float.

(** The body of the loop of the general branch for counter [i]; the
    counter and [points] are integers, converted where the arithmetic
    needs a Number. *)
Definition ramp_channel (points i : nat) (c : channel) : float :=
  let t := (float_of_Z (Z.of_nat i) / (float_of_Z (Z.of_nat points) - 1))%float in
  if (i =? 0)%nat then 255%float
  else if Z.of_nat i =? Z.of_nat points - 1 then 0%float
  else if (t <? midPoint)%float then
    let factor := (t / midPoint)%float in
    Math_round (255 + (num c - 255) * factor)%float
  else
    let factor := ((t - midPoint) / (1 - midPoint))%float in
    Math_round (num c * (1 - factor))%float.

(** [generateColorScale(baseColor, points)]; the callers of the source pass
    [points] explicitly, 4 or 22. *)
Definition generateColorScale (baseColor : string) (points : nat) : list string :=
  let parsed := map js_Number (split "," baseColor) in
  let r : channel := parsed !! 0%nat in
  let g : channel := parsed !! 1%nat in
  let b : channel := parsed !! 2%nat in
  if (points =? 4)%nat then
    [ rgb (js_ToString (lighten r)) (js_ToString (lighten g)) (js_ToString (lighten b));
      rgb (show r) (show g) (show b);
      rgb (js_ToString (darken shade2 r)) (js_ToString (darken shade2 g))
          (js_ToString (darken shade2 b));
      rgb (js_ToString (darken shade3 r)) (js_ToString (darken shade3 g))
          (js_ToString (darken shade3 b)) ]
  else
    map (fun i => rgb (js_ToString (ramp_channel points i r))
                      (js_ToString (ramp_channel points i g))
                      (js_ToString (ramp_channel points i b)))
        (seq 0 points).
End ColorScale.

(** ** ThemeParser: resolveValue, generateScales, merge, validate *)

(** The object [{ base: {...}, properties: {...} }] that [merge] returns and
    [generateScales] fills in: the own properties of its two sections, used
    as mappings from property names to values.  They are all that
    [Object.entries] and [Object.assign] read of a section. *)
Record theme : Type := {
  base : gmap string value;
  properties : gmap string value
}.

(** The merged object read again as a document, for a later [merge]. *)
Definition theme_value (t : theme) : value :=
  VObj [("base", VObj (map_to_list (base t)));
        ("properties", VObj (map_to_list (properties t)))].

(** [resolveValue(value)]: a string naming a custom property becomes a
    [var()] reference. *)
Definition resolveValue (v : value) : value :=
  if negb (String.eqb (typeof v) "string") then v
  else match v with
       | VStr s => if startsWith s "--" then VStr ("var(" +:+ s +:+ ")") else v
       | _ => v
       end.

Definition neutralColors : list string := ["--now-color--neutral"].

Definition fourPointColors : list string :=
  [ "--now-color--primary";
    "--now-color--secondary";
    "--now-color_selection--primary";
    "--now-color_selection--secondary";
    "--now-color--interactive";
    "--now-color--link";
    "--now-color--focus";
    "--now-color_alert--critical";
    "--now-color_alert--high";
    "--now-color_alert--warning";
    "--now-color_alert--moderate";
    "--now-color_alert--info";
    "--now-color_alert--positive";
    "--now-color_alert--low" ].

(** The template [`${colorName}-${index}`]. *)
Definition scale_key (colorName : string) (index : nat) : string :=
  colorName +:+ "-" +:+ pretty index.

Section Parser.
Context {RT : JSRuntime}.

(** The state the two loops of [generateScales] update: the object
    [themeData.base] and [generatedCount]. *)
Definition scale_state : Type := object * nat.

(** [scale.forEach((value, index) => { base[key] = value; generatedCount++ })]. *)
Definition store_scale (colorName : string) (scale : list string)
           (st : scale_state) : scale_state :=
  foldl (fun st iv => (Set_property st.1 (scale_key colorName iv.1) (VStr iv.2), S st.2))
        st (imap (fun (i : nat) v => (i, v)) scale).

(** The callback of [neutralColors.forEach] (22 points) and of
    [fourPointColors.forEach] (4 points). *)
Definition expand_role (points : nat) (st : scale_state) (colorName : string)
  : scale_state :=
  let baseValue := Get_property st.1 colorName in
  if truthy baseValue && String.eqb (typeof baseValue) "string" then
    match baseValue with
    | VStr s => store_scale colorName (generateColorScale s points) st
    | _ => st
    end
  else st.

(** The two loops of [generateScales] on the object [themeData.base]: the
    object afterwards and the count that is logged. *)
Definition generate_scales (themeBase : object) : scale_state :=
  let st := foldl (expand_role 22) (themeBase, 0%nat) neutralColors in
  foldl (expand_role 4) st fourPointColors.

(** [generateScales(themeData)] for a theme whose base is an ordinary
    mapping, as the base of a document is: the expanded theme and the count
    it logs.  The guard [if (!themeData.base) return] never fires on a
    [theme], whose base is an object. *)
Definition generateScales (themeData : theme) : theme * nat :=
  let st := generate_scales {| own := base themeData; proto := Object_prototype |} in
  ({| base := own st.1; properties := properties themeData |}, st.2).

(** The object [merged] of [merge] while the documents are assigned to it:
    its two sections, each with the prototype it has at that point. *)
Record merged_theme : Type := {
  merged_base : object;
  merged_properties : object
}.

(** The callback of [themes.forEach] in [merge]. *)
Definition merge_theme (merged : merged_theme) (t : value) : option merged_theme :=
  b ← get_prop t "base";
  let merged :=
    if truthy b
    then {| merged_base := Object_assign (merged_base merged) b;
            merged_properties := merged_properties merged |}
    else merged in
  p ← get_prop t "properties";
  Some (if truthy p
        then {| merged_base := merged_base merged;
                merged_properties := Object_assign (merged_properties merged) p |}
        else merged).

Fixpoint merge_each (merged : merged_theme) (themes : list value)
  : option merged_theme :=
  match themes with
  | [] => Some merged
  | t :: rest => merged ← merge_theme merged t; merge_each merged rest
  end.

(** The accumulator of [merge] after the loop, before scale generation. *)
Definition merge_fold (themes : list value) : option merged_theme :=
  merge_each {| merged_base := new_object; merged_properties := new_object |} themes.

(** What [merge] returns for the accumulator [merged]: [generateScales]
    runs its two loops on [merged.base], through the prototype that object
    has by then, and the theme is made of the own properties of the two
    sections. *)
Definition expanded (merged : merged_theme) : theme :=
  {| base := own (generate_scales (merged_base merged)).1;
     properties := own (merged_properties merged) |}.

(** [merge(themes)]: later themes override earlier ones, then the scales
    are generated. *)
Definition merge (themes : list value) : option theme :=
  merged ← merge_fold themes;
  Some (expanded merged).
End Parser.

(** Merging three documents pairwise, left to right: the result of the first
    merge is merged with the third document. *)
Definition merge_pairwise `{RT : JSRuntime} (A B C : value) : option theme :=
  merged ← merge [A; B];
  merge [theme_value merged; C].

(** The double quote of the error messages. *)
Definition dquote : string := String "034"%char EmptyString.

Definition msg_not_object : string := "Theme data must be an object".
Definition msg_no_section : string :=
  "Theme must have either " +:+ dquote +:+ "base" +:+ dquote +:+ " or "
  +:+ dquote +:+ "properties" +:+ dquote +:+ " section".
Definition msg_base_key (key : string) : string :=
  "Base key " +:+ dquote +:+ key +:+ dquote +:+ " should start with --".
Definition msg_property_key (key : string) : string :=
  "Property key " +:+ dquote +:+ key +:+ dquote +:+ " should start with --".

Record report : Type := { valid : bool; errors : list string }.

Definition bad_base_key (key : string) : bool :=
  negb (startsWith key "--") && negb (String.eqb key "isDark").

Definition bad_property_key (key : string) : bool :=
  negb (startsWith key "--").

(** [Object.entries(section).forEach(([key, value]) => { if (bad key) errors.push(msg) })]. *)
Definition check_keys (bad : string -> bool) (msg : string -> string)
           (section : value) (errors : list string) : option (list string) :=
  entries ← Object_entries section;
  Some (foldl (fun errs kv => if bad kv.1 then errs ++ [msg kv.1] else errs)
              errors entries).

(** [validate(themeData)]: the report [{ valid, errors }]. *)
Definition validate (themeData : value) : option report :=
  if negb (truthy themeData) || negb (String.eqb (typeof themeData) "object") then
    Some {| valid := false; errors := [msg_not_object] |}
  else
    b ← get_prop themeData "base";
    p ← get_prop themeData "properties";
    let errors := if negb (truthy b) && negb (truthy p) then [msg_no_section] else [] in
    errors ← (if truthy b then check_keys bad_base_key msg_base_key b errors
              else Some errors);
    errors ← (if truthy p then check_keys bad_property_key msg_property_key p errors
              else Some errors);
    Some {| valid := (length errors =? 0)%nat; errors := errors |}.

(** ** The formulas of the specification *)

(** Rounding to the nearest integer, a tie going up, over the rationals. *)
Definition spec_round (q : Q) : Z := Qfloor (q + 0.5)%Q.

(** 4-point scale, index 0: [channel + (255 - channel) * 0.25], rounded. *)
Definition spec_lightest (c : Z) : Z :=
  spec_round (inject_Z c + (255 - inject_Z c) * 0.25)%Q.

(** 4-point scale, index 2: the channel multiplied by 0.80, rounded. *)
Definition spec_darker (c : Z) : Z := spec_round (inject_Z c * 0.80)%Q.

(** 4-point scale, index 3: the channel multiplied by 0.65, rounded. *)
Definition spec_darkest (c : Z) : Z := spec_round (inject_Z c * 0.65)%Q.

(** 22-point scale, interior index [i], with [t = i / 21]: from white to
    the base below the midpoint, from the base to black from it on. *)
Definition spec_neutral (i c : Z) : Z :=
  let t := (inject_Z i / 21)%Q in
  if negb (Qle_bool 0.5 t) (* t < 0.5 *)
  then spec_round (255 + (inject_Z c - 255) * (t / 0.5))%Q
  else spec_round (inject_Z c * (1 - (t - 0.5) / 0.5))%Q.

(** The canonical string of a colour triple, [r,g,b] in decimal. *)
Definition triple (r g b : Z) : string := rgb (pretty r) (pretty g) (pretty b).

(** ** Documents and a loader used as examples *)

(** [{ base: { "--now-color--primary": "61,74,80" } }]. *)
Definition primary_doc : value :=
  VObj [("base", VObj [("--now-color--primary", VStr "61,74,80")])].

(** [{ base: { "--now-color--primary": "1,2,3" }, properties: { "--now-gap": "4px" } }]. *)
Definition shared_doc : value :=
  VObj [("base", VObj [("--now-color--primary", VStr "1,2,3")]);
        ("properties", VObj [("--now-gap", VStr "4px")])].

(** [{}]. *)
Definition empty_doc : value := VObj [].

(** [{ base: { "__proto__": { "--now-color--primary": "1,2,3" } } }]: the
    value of the key [__proto__] is itself a mapping with a role. *)
Definition inherited_role_doc : value :=
  VObj [("base", VObj [("__proto__", VObj [("--now-color--primary", VStr "1,2,3")])])].

(** [{ base: { "--now-color--primary-1": "9,9,9" } }]: a document that
    supplies an entry under a scale key. *)
Definition scale_entry_doc : value :=
  VObj [("base", VObj [("--now-color--primary-1", VStr "9,9,9")])].

(** [{ base: { "__proto__": "1,2,3" } }], as [JSON.parse] reads it: the
    base has one own property, named [__proto__]. *)
Definition proto_key_doc : value :=
  VObj [("base", VObj [("__proto__", VStr "1,2,3")])].

(** [{ base: { "--now-color--primary": true } }]: the role holds a boolean
    marker instead of a colour. *)
Definition marker_doc : value :=
  VObj [("base", VObj [("--now-color--primary", VBool true)])].

(** [{ base: { "--now-color--neutral": "128,128,128", "--now-color--link": "0,0,255" } }]. *)
Definition two_roles_base : gmap string value :=
  {[ "--now-color--neutral" := VStr "128,128,128";
     "--now-color--link" := VStr "0,0,255" ]}.

(** [{ base: { "--now-color--primary": "61,74,80",
              "--now-color--primary-1": "7,7,7" } }]: a colours document
    that supplies an entry under a scale key of its own role. *)
Definition stale_entry_doc : value :=
  VObj [("base", VObj [("--now-color--primary", VStr "61,74,80");
                       ("--now-color--primary-1", VStr "7,7,7")])].

(** A loader whose colours document and shape-and-form document both
    supply [--now-color--primary-1]. *)
Definition stale_entry_loader (path : string) : option value :=
  if String.eqb path "themes/polaris/variants/light/colors.json" then Some stale_entry_doc
  else if String.eqb path "themes/polaris/shape-and-form.json" then Some scale_entry_doc
  else if String.eqb path "themes/polaris/typography.json" then Some empty_doc
  else None.

(** A loader that knows the three documents of the theme polaris/light. *)
Definition polaris_loader (path : string) : option value :=
  if String.eqb path "themes/polaris/variants/light/colors.json" then Some primary_doc
  else if String.eqb path "themes/polaris/shape-and-form.json" then Some shared_doc
  else if String.eqb path "themes/polaris/typography.json" then Some empty_doc
  else None.

(** ** Notions of the validation policy *)

(** The document is absent ([undefined], [null]) or not an object. *)
Definition not_an_object (v : value) : Prop :=
  is_nullish v = true ∨ typeof v ≠ "object".

(** The document holds the section: a value that counts as true, as every
    mapping does, even an empty one. *)
Definition section_present (name : string) (v : value) : Prop :=
  exists s, get_prop v name = Some s ∧ truthy s = true.

(** The keys of a section of the document, in enumeration order. *)
Definition section_keys (name : string) (v : value) : list string :=
  match get_prop v name with
  | Some s => (own_entries s).*1
  | None => []
  end.

(** The key starts with the two-character prefix of custom properties. *)
Definition custom_property (key : string) : Prop :=
  exists rest, key = "--" +:+ rest.

(** [{ base: { "bad": "1,2,3" } }] and [{ base: { "--ok": "1,2,3" } }]. *)
Definition bad_key_doc : value := VObj [("base", VObj [("bad", VStr "1,2,3")])].
Definition good_key_doc : value := VObj [("base", VObj [("--ok", VStr "1,2,3")])].

(** ** Notions the properties are stated with *)

(** The recognised roles, each with the number of points of its scale, in
    the order [generateScales] visits them. *)
Definition roles : list (string * nat) :=
  map (fun c => (c, 22%nat)) neutralColors ++ map (fun c => (c, 4%nat)) fourPointColors.

(** The keys [role-0 .. role-(points-1)] of one role, and those of all. *)
Definition scale_keys (colorName : string) (points : nat) : list string :=
  map (scale_key colorName) (seq 0 points).

Definition all_scale_keys : list string :=
  flat_map (fun cp : string * nat => scale_keys cp.1 cp.2) roles.

(** The test [baseValue && typeof baseValue === 'string'] on what a base
    mapping holds for a role: a string, and not the empty one. *)
Definition eligible (b : gmap string value) (colorName : string) : bool :=
  let baseValue := default VUndefined (b !! colorName) in
  truthy baseValue && String.eqb (typeof baseValue) "string".

(** The own properties of a value as a mapping: each key with the value of
    its last entry. *)
Definition entries_map (source : value) : gmap string value :=
  foldl (fun m kv => <[kv.1 := kv.2]> m) ∅ (own_entries source).

(** The mapping a document supplies for one of its two sections: the own
    properties of the section, and nothing when the section is missing or
    falsy. *)
Definition section_map (name : string) (doc : value) : gmap string value :=
  match get_prop doc name with
  | Some s => if truthy s then entries_map s else ∅
  | None => ∅
  end.

(** The properties an object inherits from a document that is its
    prototype. *)
Definition inherited (p : prototype) : gmap string value :=
  match p with
  | Document_prototype (VObj fields) => list_to_map fields
  | _ => ∅
  end.

(** What a read of a role name finds on an object: its own properties, and
    behind them the inherited ones. *)
Definition visible (o : object) : gmap string value := own o ∪ inherited (proto o).

(** An ordinary mapping as an object. *)
Definition plain (m : gmap string value) : object :=
  {| own := m; proto := Object_prototype |}.

(** One step of [merge] on one section of the accumulator: the section of
    the document is assigned to it when the document has one. *)
Definition assign_section (name : string) (o : object) (doc : value) : object :=
  match get_prop doc name with
  | Some s => if truthy s then Object_assign o s else o
  | None => o
  end.

(** The key is one that scale generation writes for the accumulator: a
    [role-index] key of a role for which the base holds a non-empty string,
    of its own or inherited. *)
Definition regenerated (folded : merged_theme) (k : string) : Prop :=
  exists cp, cp ∈ roles
             ∧ eligible (visible (merged_base folded)) cp.1 = true
             ∧ k ∈ scale_keys cp.1 cp.2.

(** What decides the effect of an assignment to [__proto__]: the own
    property of that name, if any, and the prototype. *)
Definition proto_state (o : object) : option value * prototype :=
  (own o !! "__proto__", proto o).

(** The value of the last document of the sequence that defines [k] in the
    section: a later document that omits [k] leaves the earlier value. *)
Fixpoint last_defined (name k : string) (themes : list value) : option value :=
  match themes with
  | [] => None
  | t :: rest =>
      match last_defined name k rest with
      | Some v => Some v
      | None => section_map name t !! k
      end
  end.

Section Generated.
Context {RT : JSRuntime}.

(** The entries [role-i] of one scale. *)
Definition scale_map (colorName : string) (scale : list string)
  : gmap string value :=
  list_to_map (imap (fun (i : nat) v => (scale_key colorName i, VStr v)) scale).

(** The entries the role [cp.1] contributes for the base mapping [b]. *)
Definition scale_part (b : gmap string value) (cp : string * nat)
  : gmap string value :=
  match b !! cp.1 with
  | Some (VStr s) =>
      if eligible b cp.1 then scale_map cp.1 (generateColorScale s cp.2) else ∅
  | _ => ∅
  end.

(** All the entries scale generation writes for the base mapping [b]. *)
Definition generated (b : gmap string value) : gmap string value :=
  foldl (fun acc cp => scale_part b cp ∪ acc) ∅ roles.

(** How many entries it writes: the points of every eligible role. *)
Definition scale_count (b : gmap string value) (cp : string * nat) : nat :=
  if eligible b cp.1 then cp.2 else 0%nat.

Definition generated_count (b : gmap string value) : nat :=
  foldl (fun n cp => (n + scale_count b cp)%nat) 0%nat roles.
End Generated.

(** ** Decision procedures used by the proofs *)

(** The integers of [0, 255]. *)
Definition channels : list Z := map Z.of_nat (seq 0 256).

(** The Number [x] has the integer value [n], and [n] is a channel value. *)
Definition has_value (x : float) (n : Z) : bool :=
  match float_integer x with
  | Some k => (k =? n) && (0 <=? n) && (n <=? 255)
  | None => false
  end.

Definition no_comma (s : string) : bool :=
  forallb (fun c => negb (Ascii.eqb c ",")) (list_ascii_of_string s).

(** ** ThemeParser.parse *)

Section Serializer.
Context {RT : JSRuntime}.

(** ToString of a value, as a template literal applies it.  An array prints
    its elements separated by commas, [null] and [undefined] elements as the
    empty string; an object prints as [[object Object]], unless it has an own
    property named [toString], which no JSON value makes callable: the
    conversion then throws a TypeError ([None]). *)
Fixpoint js_String (v : value) : option string :=
  match v with
  | VUndefined => Some "undefined"
  | VNull => Some "null"
  | VBool b => Some (if b then "true" else "false")
  | VNum x => Some (js_ToString x)
  | VStr s => Some s
  | VArr items =>
      String.concat ","
        <$> mapM (fun x => if is_nullish x then Some "" else js_String x) items
  | VObj fields =>
      match assoc "toString" fields with
      | Some _ => None
      | None => Some "[object Object]"
      end
  end.

(** The template [`  ${key}: ${value};`], the value already converted. *)
Definition css_line (key text : string) : string :=
  "  " +:+ key +:+ ": " +:+ text +:+ ";".

Definition newline : string := String "010"%char EmptyString.

(** The template [`:root {\n${cssVars.join('\n')}\n}`]. *)
Definition css_text (cssVars : list string) : string :=
  ":root {" +:+ newline +:+ String.concat newline cssVars +:+ newline +:+ "}".

(** The loop over the base entries in [parse]: [isDark] is skipped, every
    other entry adds a line and is recorded in [resolvedVars].  The state is
    kept as it stands when a conversion throws. *)
Fixpoint parse_base (entries : list (string * value)) (cssVars : list string)
         (resolvedVars : gmap string value)
  : gmap string value * option (list string) :=
  match entries with
  | [] => (resolvedVars, Some cssVars)
  | (key, value) :: rest =>
      if String.eqb key "isDark" then parse_base rest cssVars resolvedVars
      else match js_String value with
           | None => (resolvedVars, None)
           | Some text =>
               parse_base rest (cssVars ++ [css_line key text])
                          (<[key := value]> resolvedVars)
           end
  end.

(** The loop over the properties entries in [parse]. *)
Fixpoint parse_properties (entries : list (string * value)) (cssVars : list string)
  : option (list string) :=
  match entries with
  | [] => Some cssVars
  | (key, value) :: rest =>
      text ← js_String (resolveValue value);
      parse_properties rest (cssVars ++ [css_line key text])
  end.

(** [parse(themeData)]: the new content of [resolvedVars], which is cleared
    first, and the CSS text, or [None] when the call throws. *)
Definition parse (themeData : value) : gmap string value * option string :=
  match get_prop themeData "base" with
  | None => (∅, None)
  | Some b =>
      let '(resolvedVars, cssVars) :=
        if truthy b
        then match Object_entries b with
             | Some entries => parse_base entries [] ∅
             | None => (∅, None)
             end
        else (∅, Some []) in
      (resolvedVars,
       cssVars ← cssVars;
       p ← get_prop themeData "properties";
       cssVars ← (if truthy p
                  then entries ← Object_entries p; parse_properties entries cssVars
                  else Some cssVars);
       Some (css_text cssVars))
  end.
End Serializer.

(** ** ServiceNowThemeLoader: the cache, applyTheme, loadSingleTheme, loadAndApply *)

(** A JavaScript [Map] with string keys: the entries in insertion order. *)
Definition Map_has (k : string) (m : list (string * value)) : bool :=
  bool_decide (is_Some (assoc k m)).

Definition Map_get (k : string) (m : list (string * value)) : value :=
  default VUndefined (assoc k m).

Fixpoint Map_set (k : string) (v : value) (m : list (string * value))
  : list (string * value) :=
  match m with
  | [] => [(k, v)]
  | (k', v') :: rest =>
      if String.eqb k k' then (k, v) :: rest else (k', v') :: Map_set k v rest
  end.

(** The fields of a loader that the modelled methods use.  [preloadedThemes]
    is an ordinary object used as a mapping from paths to documents: the
    field holds its own properties, and it inherits the members of
    [Object.prototype].  The style element fields are not used by these
    methods. *)
Record loader : Type := {
  basePath : string;
  enableCache : bool;
  preloadedThemes : gmap string value;
  cache : list (string * value);
  activeTheme : value
}.

Definition with_cache (L : loader) (c : list (string * value)) : loader :=
  {| basePath := basePath L; enableCache := enableCache L;
     preloadedThemes := preloadedThemes L; cache := c;
     activeTheme := activeTheme L |}.

Definition with_activeTheme (L : loader) (a : value) : loader :=
  {| basePath := basePath L; enableCache := enableCache L;
     preloadedThemes := preloadedThemes L; cache := cache L;
     activeTheme := a |}.

Definition clearCache (L : loader) : loader := with_cache L [].

(** [getCacheStats()]: [{ size, keys }]. *)
Definition getCacheStats (L : loader) : nat * list string :=
  (length (cache L), (cache L).*1).

Definition getActiveTheme (L : loader) : value := activeTheme L.

Definition removeTheme (L : loader) : loader := with_activeTheme L VNull.

(** The names of the members of [Object.prototype], which every ordinary
    object inherits: eleven functions and the accessor [__proto__]. *)
Definition Object_prototype_names : list string :=
  [ "constructor"; "hasOwnProperty"; "isPrototypeOf"; "propertyIsEnumerable";
    "toLocaleString"; "toString"; "valueOf"; "__defineGetter__";
    "__defineSetter__"; "__lookupGetter__"; "__lookupSetter__"; "__proto__" ].

(** What [loadSingleTheme] can return: a document, or the member of
    [Object.prototype] that a path of that name finds in [preloadedThemes]:
    a function, or for [__proto__] the prototype object itself. *)
Inductive loaded : Type :=
| Document (d : value)
| Builtin (name : string).

(** What the code that receives a loaded value reads of it: a member of
    [Object.prototype] has neither a [base] nor a [properties] property and
    is not [null], as the document [{}]. *)
Definition document_of (themeData : loaded) : value :=
  match themeData with
  | Document d => d
  | Builtin _ => VObj []
  end.

(** [this.preloadedThemes[themePath]]: the own property of that name, or
    else the inherited member; [None] stands for [undefined]. *)
Definition preloaded (L : loader) (themePath : string) : option loaded :=
  match preloadedThemes L !! themePath with
  | Some d => Some (Document d)
  | None =>
      if bool_decide (themePath ∈ Object_prototype_names)
      then Some (Builtin themePath) else None
  end.

(** The test [if (this.preloadedThemes[themePath])]: functions and objects
    count as true. *)
Definition is_preloaded (L : loader) (themePath : string) : bool :=
  match preloaded L themePath with
  | Some (Document d) => truthy d
  | Some (Builtin _) => true
  | None => false
  end.

Section LoaderState.

(** The network: what fetching a full path and reading the response as JSON
    gives, [None] when the fetch fails, the status is not OK, or the body is
    not JSON (each of them throws). *)
Variable fetch : string -> option value.

(** The inline style of the root element, and its [setProperty(key, value)],
    which throws ([None]) when the value cannot be converted to a string. *)
Variable style : Type.
Variable setProperty : string -> value -> style -> option style.

(** [loadSingleTheme(themePath)]: the loader afterwards, and what is
    returned, or [None] when the call throws.  The validation of a preloaded
    value only warns; on a function or on [Object.prototype] it returns a
    report as on every value. *)
Definition loadSingleTheme (themePath : string) (L : loader) : loader * option loaded :=
  if is_preloaded L themePath then
    match preloaded L themePath with
    | Some (Document themeData) =>
        (L, validation ← validate themeData; Some (Document themeData))
    | themeData => (L, themeData)
    end
  else
    let fullPath := basePath L +:+ themePath in
    if enableCache L && Map_has fullPath (cache L) then
      (L, Some (Document (Map_get fullPath (cache L))))
    else
      match fetch fullPath with
      | None => (L, None)
      | Some themeData =>
          match validate themeData with
          | None => (L, None)
          | Some validation =>
              ((if enableCache L
                then with_cache L (Map_set fullPath themeData (cache L))
                else L),
               Some (Document themeData))
          end
      end.

(** The loop over the base entries in [applyTheme]. *)
Fixpoint apply_base (entries : list (string * value)) (root : style)
  : style * option unit :=
  match entries with
  | [] => (root, Some ())
  | (key, value) :: rest =>
      if String.eqb key "isDark" then apply_base rest root
      else match setProperty key value root with
           | None => (root, None)
           | Some root => apply_base rest root
           end
  end.

(** The loop over the properties entries in [applyTheme]: a string value
    that starts with [--] references another variable and is passed wrapped
    in [var()]. *)
Fixpoint apply_properties (entries : list (string * value)) (root : style)
  : style * option unit :=
  match entries with
  | [] => (root, Some ())
  | (key, value) :: rest =>
      let arg :=
        match value with
        | VStr s => if startsWith s "--" then VStr ("var(" +:+ s +:+ ")") else value
        | _ => value
        end in
      match setProperty key arg root with
      | None => (root, None)
      | Some root => apply_properties rest root
      end
  end.

(** [applyTheme(themeData)]: the style afterwards, and whether the call
    returned. *)
Definition applyTheme (themeData : value) (root : style) : style * option unit :=
  match get_prop themeData "base" with
  | None => (root, None)
  | Some b =>
      let '(root, done) :=
        if truthy b
        then match Object_entries b with
             | Some entries => apply_base entries root
             | None => (root, None)
             end
        else (root, Some ()) in
      match done, get_prop themeData "properties" with
      | Some _, Some p =>
          if truthy p
          then match Object_entries p with
               | Some entries => apply_properties entries root
               | None => (root, None)
               end
          else (root, Some ())
      | _, _ => (root, None)
      end
  end.

(** [loadAndApply(themePath)]. *)
Definition loadAndApply (themePath : string) (L : loader) (root : style)
  : loader * style * option loaded :=
  match loadSingleTheme themePath L with
  | (L, None) => (L, root, None)
  | (L, Some themeData) =>
      match applyTheme (document_of themeData) root with
      | (root, None) => (L, root, None)
      | (root, Some _) => (with_activeTheme L (VStr themePath), root, Some themeData)
      end
  end.
End LoaderState.

Arguments apply_base {style} setProperty entries root.
Arguments apply_properties {style} setProperty entries root.
Arguments applyTheme {style} setProperty themeData root.
Arguments loadAndApply fetch {style} setProperty themePath L root.

(** ** ServiceNowThemeLoader: loadThemeSet, loadTheme *)

Section ThemeSets.
Context {RT : JSRuntime}.

(** What each load of [loadThemeSet] resolves to: the value read as a
    document, [None] when the promise rejects.  The loads run concurrently;
    which of them use the network or the cache, and what they leave in the
    cache, is outside this model. *)
Variable loadSingleTheme : string -> option value.

Variable style : Type.
Variable setProperty : string -> value -> style -> option style.

(** The merged object as [Object.entries] reads it.  The order in which a
    section enumerates its keys (integer keys first, then the others in the
    order of their creation) is not kept by a [theme]: it is left open
    ([enumerates] says what is known of it). *)
Variable enumerate : theme -> value.

(** What follows the loads in [loadThemeSet]: [merge], [applyTheme] on the
    merged object, and the assignment of the paths to [activeTheme].  The
    results are the active theme and the style afterwards, and the merged
    theme, [None] when a step throws. *)
Definition merge_and_apply (themes : list value) (themePaths : list string)
           (active : value) (root : style) : value * style * option theme :=
  match merge themes with
  | None => (active, root, None)
  | Some merged =>
      match applyTheme setProperty (enumerate merged) root with
      | (root, None) => (active, root, None)
      | (root, Some _) => (VArr (VStr <$> themePaths), root, Some merged)
      end
  end.

(** [loadThemeSet(themePaths)]: [Promise.all] keeps the order of the paths
    and rejects when one of the loads does. *)
Definition loadThemeSet (themePaths : list string) (active : value) (root : style)
  : value * style * option theme :=
  match mapM loadSingleTheme themePaths with
  | None => (active, root, None)
  | Some themes => merge_and_apply themes themePaths active root
  end.

(** [loadTheme(themeName, variant)]: the colours of the variant, then the
    two documents shared by the variants of the theme. *)
Definition loadTheme (themeName variant : string) (active : value) (root : style)
  : value * style * option theme :=
  loadThemeSet
    [ "themes/" +:+ themeName +:+ "/variants/" +:+ variant +:+ "/colors.json";
      "themes/" +:+ themeName +:+ "/shape-and-form.json";
      "themes/" +:+ themeName +:+ "/typography.json" ]
    active root.
End ThemeSets.

Arguments merge_and_apply {RT style} setProperty enumerate themes themePaths active root.
Arguments loadThemeSet {RT} loadSingleTheme {style} setProperty enumerate themePaths active root.
Arguments loadTheme {RT} loadSingleTheme {style} setProperty enumerate themeName variant active root.

(** The function reads a merged object as [Object.entries] does: each
    section lists exactly its own properties, each once, in some order. *)
Definition enumerates (enumerate : theme -> value) : Prop :=
  forall t, exists baseEntries propertiesEntries,
    enumerate t = VObj [("base", VObj baseEntries); ("properties", VObj propertiesEntries)]
    ∧ baseEntries ≡ₚ map_to_list (base t)
    ∧ propertiesEntries ≡ₚ map_to_list (properties t).

(** The three paths of a theme variant, in the order of [loadTheme]. *)
Definition theme_paths (themeName variant : string) : list string :=
  [ "themes/" +:+ themeName +:+ "/variants/" +:+ variant +:+ "/colors.json";
    "themes/" +:+ themeName +:+ "/shape-and-form.json";
    "themes/" +:+ themeName +:+ "/typography.json" ].

(** A style that records its declarations, in the order they were first
    set; its [setProperty] accepts every value. *)
Definition record_property (key : string) (v : value) (root : list (string * value))
  : option (list (string * value)) :=
  Some (Map_set key v root).


(** ** The declarations of a theme *)

(** The entries of a section of a document, in enumeration order. *)
Definition section_entries (name : string) (doc : value) : list (string * value) :=
  match get_prop doc name with
  | Some s => own_entries s
  | None => []
  end.

(** The flat list of declarations a theme stands for: its base entries other
    than [isDark], as they are, then its properties entries, a reference
    wrapped in [var()]. *)
Definition theme_declarations (doc : value) : list (string * value) :=
  List.filter (fun kv : string * value => negb (String.eqb kv.1 "isDark"))
              (section_entries "base" doc)
  ++ map (fun kv : string * value => (kv.1, resolveValue kv.2))
         (section_entries "properties" doc).

(** One [setProperty] call per declaration, in order, up to the first call
    that throws. *)
Fixpoint set_all {style : Type} (setProperty : string -> value -> style -> option style)
         (decls : list (string * value)) (root : style) : style * option unit :=
  match decls with
  | [] => (root, Some ())
  | (key, value) :: rest =>
      match setProperty key value root with
      | None => (root, None)
      | Some root => set_all setProperty rest root
      end
  end.

(** One line of CSS text per declaration, in order; [None] when a value
    cannot be converted to a string. *)
Definition declaration_lines `{RT : JSRuntime} (decls : list (string * value))
  : option (list string) :=
  mapM (fun kv : string * value => css_line kv.1 <$> js_String kv.2) decls.

(** A value that is not an array or an object. *)
Definition is_primitive (v : value) : bool :=
  match v with
  | VArr _ | VObj _ => false
  | _ => true
  end.

(** ** The theme switcher element (theme-switcher.js) *)

(** The two fields of [ThemeSwitcherElement] behind [currentTheme]; both
    are [null] in a new element. *)
Record switcher := { _currentTheme : value; _currentVariant : value }.

Definition new_switcher : switcher :=
  {| _currentTheme := VNull; _currentVariant := VNull |}.

(** An element of an array of strings, [undefined] past its end. *)
Definition element (i : nat) (pieces : list string) : value :=
  match pieces !! i with
  | Some s => VStr s
  | None => VUndefined
  end.

(** [set currentTheme(value)], for a string: the first two pieces of
    [value.split(':')].  The rendering that follows writes neither field. *)
Definition set_currentTheme (text : string) (S : switcher) : switcher :=
  let pieces := split ":" text in
  {| _currentTheme := element 0 pieces; _currentVariant := element 1 pieces |}.

(** [get currentTheme()]: the template of the two fields. *)
Definition get_currentTheme `{RT : JSRuntime} (S : switcher) : option string :=
  themeName ← js_String (_currentTheme S);
  variant ← js_String (_currentVariant S);
  Some (themeName +:+ ":" +:+ variant).

(** ** Notions the further properties are stated with *)

(** The channel of entry [i] of the 22-point ramp of a base channel [c]. *)
Definition ramp_entry (i : nat) (c : Z) : Z :=
  if (i =? 0)%nat then 255
  else if (i =? 21)%nat then 0
  else spec_neutral (Z.of_nat i) c.

(** The test of [parse] and [applyTheme] on a base entry: its key is not
    [isDark]. *)
Definition not_isDark (kv : string * value) : bool := negb (String.eqb kv.1 "isDark").

(** The text of a declared value that is a string. *)
Definition string_text (v : value) : string :=
  match v with VStr s => s | _ => "" end.

(** A loader with the cache enabled and nothing preloaded or cached. *)
Definition fresh_loader : loader :=
  {| basePath := "/static/"; enableCache := true; preloadedThemes := ∅;
     cache := []; activeTheme := VNull |}.

(** A loader that holds the three documents of the light variant. *)
Definition preloaded_loader : loader :=
  {| basePath := ""; enableCache := true;
     preloadedThemes :=
       {[ "themes/polaris/variants/light/colors.json" := primary_doc;
          "themes/polaris/shape-and-form.json" := shared_doc;
          "themes/polaris/typography.json" := marker_doc ]};
     cache := []; activeTheme := VNull |}.

(** * Properties *)

(** ** The model on concrete inputs *)

Example Math_round_examples :
  Math_round 6.5%float = 7%float
  /\ Math_round 2.25%float = 2%float
  /\ Math_round (-2.5)%float = (-2)%float
  /\ Math_round (-0.25)%float = (-0)%float
  /\ Math_round nan = nan
  /\ Math_round 109.5%float = 110%float.
Proof. repeat split; vm_compute; reflexivity. Qed.

Example split_examples :
  split "," "61,74,80" = ["61"; "74"; "80"]
  /\ split "," "a,,b," = ["a"; ""; "b"; ""]
  /\ split "," "" = [""].
Proof. repeat split. Qed.

Example own_entries_examples :
  own_entries (VStr "ab") = [("0", VStr "a"); ("1", VStr "b")]
  /\ own_entries (VArr [VNull; VBool true]) = [("0", VNull); ("1", VBool true)]
  /\ own_entries (VNum 5%float) = [].
Proof. repeat split; vm_compute; reflexivity. Qed.

Example generateColorScale_examples :
  generateColorScale (RT := decimal_runtime) "61,74,80" 4
  = ["110,119,124"; "61,74,80"; "49,59,64"; "40,48,52"]
  /\ generateColorScale (RT := decimal_runtime) "1,5" 4
     = ["65,68,NaN"; "1,5,undefined"; "1,4,NaN"; "1,3,NaN"]
  /\ generateColorScale (RT := decimal_runtime) "128,128,128" 3
     = ["255,255,255"; "128,128,128"; "0,0,0"].
Proof. repeat split; vm_compute; reflexivity. Qed.

Example validate_examples :
  validate VNull = Some {| valid := false; errors := [msg_not_object] |}
  /\ validate (VStr "theme") = Some {| valid := false; errors := [msg_not_object] |}
  /\ validate (VArr []) = Some {| valid := false; errors := [msg_no_section] |}
  /\ validate (VObj [("base", VObj [("isDark", VBool true); ("x", VNull)]);
                     ("properties", VObj [("y", VStr "1px")])])
     = Some {| valid := false;
               errors := [msg_base_key "x"; msg_property_key "y"] |}.
Proof. repeat split. Qed.

Example merge_examples :
  merge (RT := decimal_runtime) [VNull] = None
  /\ (base <$> merge (RT := decimal_runtime) [primary_doc; shared_doc])
     = Some (list_to_map
               [ ("--now-color--primary", VStr "1,2,3");
                 ("--now-color--primary-0", VStr "65,65,66");
                 ("--now-color--primary-1", VStr "1,2,3");
                 ("--now-color--primary-2", VStr "1,2,2");
                 ("--now-color--primary-3", VStr "1,1,2") ]).
Proof. split; vm_compute; reflexivity. Qed.

(** An assignment to the key [__proto__] of a new object: a string is
    ignored, [null] and a mapping become the prototype; once the prototype
    is [null], the key is stored as any other. *)
Example Object_assign_proto_examples :
  Object_assign new_object (VObj [("__proto__", VStr "1,2,3"); ("a", VNull)])
  = {| own := {[ "a" := VNull ]}; proto := Object_prototype |}
  /\ Object_assign new_object (VObj [("__proto__", VNull)])
     = {| own := ∅; proto := Null_prototype |}
  /\ Object_assign {| own := ∅; proto := Null_prototype |}
                   (VObj [("__proto__", VStr "z")])
     = {| own := {[ "__proto__" := VStr "z" ]}; proto := Null_prototype |}
  /\ Object_assign new_object (VObj [("__proto__", VObj [("k", VNull)])])
     = {| own := ∅; proto := Document_prototype (VObj [("k", VNull)]) |}.
Proof. repeat split; vm_compute; reflexivity. Qed.

(** A role that the merged base inherits is expanded like one of its own;
    the role itself is no entry of the merged base. *)
Example merge_inherited_role :
  (base <$> merge (RT := decimal_runtime) [inherited_role_doc])
  = Some (list_to_map
            [ ("--now-color--primary-0", VStr "65,65,66");
              ("--now-color--primary-1", VStr "1,2,3");
              ("--now-color--primary-2", VStr "1,2,2");
              ("--now-color--primary-3", VStr "1,1,2") ])
  /\ (base <$> merge (RT := decimal_runtime) [proto_key_doc]) = Some ∅.
Proof. split; vm_compute; reflexivity. Qed.

(** A path that names a member of [Object.prototype] is found in
    [preloadedThemes] and returned without a fetch; an own property of that
    name comes first. *)
Example loadSingleTheme_inherited_name :
  loadSingleTheme (fun _ => Some primary_doc) "toString" fresh_loader
  = (fresh_loader, Some (Builtin "toString"))
  /\ loadSingleTheme (fun _ => Some primary_doc) "themes/polaris/typography.json"
                     preloaded_loader
     = (preloaded_loader, Some (Document marker_doc)).
Proof. split; vm_compute; reflexivity. Qed.

(** The triple 144,152,155 belongs to the 22-point ramp of 61,74,80, at
    index 6; the 4-point scale of that colour starts with 110,119,124. *)
Example neutral_ramp_entry_6 :
  generateColorScale (RT := decimal_runtime) "61,74,80" 22 !! 6%nat
  = Some "144,152,155".
Proof. vm_compute. reflexivity. Qed.

(** Merging [primary_doc], [empty_doc] and [marker_doc] in one call leaves
    no scale entry, the role ending up with a boolean; merging the first two
    and then the third keeps the entries the first merge generated. *)
Example stale_scale_entry :
  (merge (RT := decimal_runtime) [primary_doc; empty_doc; marker_doc]
     ≫= fun m => base m !! "--now-color--primary-0") = None
  /\ (merge_pairwise (RT := decimal_runtime) primary_doc empty_doc marker_doc
        ≫= fun m => base m !! "--now-color--primary-0")
     = Some (VStr "110,119,124").
Proof. split; vm_compute; reflexivity. Qed.

(** ** Strings and channel arithmetic *)

Lemma channels_forall (P : Z -> bool) :
  forallb P channels = true -> forall c, 0 <= c <= 255 -> P c = true.
Proof.
  intros HP c Hc. rewrite forallb_forall in HP. apply HP.
  unfold channels. apply in_map_iff. exists (Z.to_nat c). split; [lia|].
  apply in_seq. lia.
Qed.

Lemma has_value_inv x n :
  has_value x n = true -> float_integer x = Some n /\ 0 <= n <= 255.
Proof.
  unfold has_value. destruct (float_integer x) as [k|]; [|discriminate].
  rewrite !andb_true_iff. intros [[Hk H0] H1].
  apply Z.eqb_eq in Hk. apply Z.leb_le in H0, H1. subst k. auto.
Qed.

Lemma split_no_comma s : no_comma s = true -> split "," s = [s].
Proof.
  unfold no_comma. induction s as [|c s IH]; simpl; [reflexivity|].
  rewrite andb_true_iff. intros [Hc Hs]. apply negb_true_iff in Hc.
  rewrite Hc, (IH Hs). reflexivity.
Qed.

Lemma split_app_comma s rest :
  no_comma s = true -> split "," (s +:+ "," +:+ rest) = s :: split "," rest.
Proof.
  change ("," +:+ rest) with (String "," rest).
  unfold no_comma. induction s as [|c s IH]; simpl; [reflexivity|].
  rewrite andb_true_iff. intros [Hc Hs]. apply negb_true_iff in Hc.
  rewrite Hc, (IH Hs). reflexivity.
Qed.

Lemma split_rgb x y z :
  no_comma x = true -> no_comma y = true -> no_comma z = true ->
  split "," (rgb x y z) = [x; y; z].
Proof.
  intros Hx Hy Hz. unfold rgb.
  rewrite (split_app_comma x _ Hx), (split_app_comma y _ Hy), (split_no_comma z Hz).
  reflexivity.
Qed.

Lemma pretty_no_comma c : 0 <= c <= 255 -> no_comma (pretty c) = true.
Proof.
  apply (channels_forall (fun c => no_comma (pretty c))). vm_compute. reflexivity.
Qed.

Lemma split_triple r g b :
  0 <= r <= 255 -> 0 <= g <= 255 -> 0 <= b <= 255 ->
  split "," (triple r g b) = [pretty r; pretty g; pretty b].
Proof. intros. apply split_rgb; apply pretty_no_comma; assumption. Qed.

Lemma channel_value c :
  0 <= c <= 255 -> has_value (float_of_Z c) c = true.
Proof.
  apply (channels_forall (fun c => has_value (float_of_Z c) c)).
  vm_compute. reflexivity.
Qed.

Lemma lighten_value c :
  0 <= c <= 255 -> has_value (lighten (Some (float_of_Z c))) (spec_lightest c) = true.
Proof.
  apply (channels_forall
           (fun c => has_value (lighten (Some (float_of_Z c))) (spec_lightest c))).
  vm_compute. reflexivity.
Qed.

Lemma darken2_value c :
  0 <= c <= 255 ->
  has_value (darken shade2 (Some (float_of_Z c))) (spec_darker c) = true.
Proof.
  apply (channels_forall
           (fun c => has_value (darken shade2 (Some (float_of_Z c))) (spec_darker c))).
  vm_compute. reflexivity.
Qed.

Lemma darken3_value c :
  0 <= c <= 255 ->
  has_value (darken shade3 (Some (float_of_Z c))) (spec_darkest c) = true.
Proof.
  apply (channels_forall
           (fun c => has_value (darken shade3 (Some (float_of_Z c))) (spec_darkest c))).
  vm_compute. reflexivity.
Qed.

Lemma ramp_value (i : nat) c :
  (1 <= i <= 20)%nat -> 0 <= c <= 255 ->
  has_value (ramp_channel 22 i (Some (float_of_Z c))) (spec_neutral (Z.of_nat i) c) = true.
Proof.
  intros Hi. revert c.
  apply (channels_forall
           (fun c => has_value (ramp_channel 22 i (Some (float_of_Z c)))
                               (spec_neutral (Z.of_nat i) c))).
  assert (forallb
            (fun i => forallb
               (fun c => has_value (ramp_channel 22 i (Some (float_of_Z c)))
                                   (spec_neutral (Z.of_nat i) c)) channels)
            (seq 1 20) = true) as Hall by (vm_compute; reflexivity).
  rewrite forallb_forall in Hall. apply Hall. apply in_seq. lia.
Qed.

(** ** The reference runtime obeys the laws *)

Lemma decimal_Number_pretty n :
  0 <= n <= 255 -> decimal_Number (pretty n) = float_of_Z n.
Proof.
  intros Hn.
  assert (negb (String.eqb (pretty n) "")
          && bool_decide (digits_value 0 (pretty n) = Some n) = true) as Hd.
  { revert n Hn.
    apply (channels_forall
             (fun n => negb (String.eqb (pretty n) "")
                       && bool_decide (digits_value 0 (pretty n) = Some n))).
    vm_compute. reflexivity. }
  apply andb_true_iff in Hd as [Hne Hv]. apply bool_decide_eq_true in Hv.
  unfold decimal_Number. rewrite Hv.
  destruct (pretty n) eqn:E; [discriminate Hne | reflexivity].
Qed.

Lemma decimal_runtime_laws : JSRuntimeLaws decimal_runtime.
Proof.
  split.
  - exact decimal_Number_pretty.
  - intros x n Hx _. simpl. unfold integral_ToString. rewrite Hx. reflexivity.
Qed.

(** ** generateColorScale *)

Section ColorScaleFacts.
Context {RT : JSRuntime}.

Lemma generateColorScale_length (baseColor : string) (points : nat) :
  length (generateColorScale baseColor points) = points.
Proof.
  unfold generateColorScale. destruct (Nat.eqb_spec points 4) as [->|_].
  - reflexivity.
  - rewrite length_map, length_seq. reflexivity.
Qed.

Hypothesis laws : JSRuntimeLaws RT.

Lemma ToString_value x n : has_value x n = true -> js_ToString x = pretty n.
Proof.
  intros H. apply has_value_inv in H as [Hx Hn].
  exact (ToString_integer RT laws x n Hx Hn).
Qed.

Lemma parsed_triple r g b :
  0 <= r <= 255 -> 0 <= g <= 255 -> 0 <= b <= 255 ->
  map js_Number (split "," (triple r g b))
  = [float_of_Z r; float_of_Z g; float_of_Z b].
Proof.
  intros Hr Hg Hb. rewrite split_triple by assumption. simpl.
  rewrite !(Number_decimal RT laws) by assumption. reflexivity.
Qed.

Lemma rgb_values x y z a b c :
  has_value x a = true -> has_value y b = true -> has_value z c = true ->
  rgb (js_ToString x) (js_ToString y) (js_ToString z) = triple a b c.
Proof.
  intros Hx Hy Hz. unfold triple.
  rewrite (ToString_value x a Hx), (ToString_value y b Hy), (ToString_value z c Hz).
  reflexivity.
Qed.

Lemma four_point_scale r g b :
  0 <= r <= 255 -> 0 <= g <= 255 -> 0 <= b <= 255 ->
  generateColorScale (triple r g b) 4
  = [ triple (spec_lightest r) (spec_lightest g) (spec_lightest b);
      triple r g b;
      triple (spec_darker r) (spec_darker g) (spec_darker b);
      triple (spec_darkest r) (spec_darkest g) (spec_darkest b) ].
Proof.
  intros Hr Hg Hb. unfold generateColorScale.
  rewrite parsed_triple by assumption. cbn [Nat.eqb lookup list_lookup show].
  repeat (f_equal; try (apply rgb_values;
    auto using lighten_value, darken2_value, darken3_value, channel_value)).
Qed.

Lemma neutral_scale r g b :
  0 <= r <= 255 -> 0 <= g <= 255 -> 0 <= b <= 255 ->
  generateColorScale (triple r g b) 22 !! 0%nat = Some "255,255,255"
  /\ generateColorScale (triple r g b) 22 !! 21%nat = Some "0,0,0"
  /\ forall i : nat, (1 <= i <= 20)%nat ->
       generateColorScale (triple r g b) 22 !! i
       = Some (triple (spec_neutral (Z.of_nat i) r) (spec_neutral (Z.of_nat i) g)
                      (spec_neutral (Z.of_nat i) b)).
Proof.
  intros Hr Hg Hb. unfold generateColorScale.
  rewrite parsed_triple by assumption. cbn [Nat.eqb lookup list_lookup].
  assert (has_value 255%float 255 = true) as H255 by (vm_compute; reflexivity).
  assert (has_value 0%float 0 = true) as H0 by (vm_compute; reflexivity).
  split; [|split].
  - cbn [seq map lookup list_lookup]. f_equal.
    change (ramp_channel 22 0 _) with 255%float.
    exact (rgb_values _ _ _ _ _ _ H255 H255 H255).
  - rewrite list_lookup_fmap, lookup_seq_lt by lia. cbn [fmap option_fmap option_map].
    f_equal. change (ramp_channel 22 (0 + 21) _) with 0%float.
    exact (rgb_values _ _ _ _ _ _ H0 H0 H0).
  - intros i Hi.
    rewrite list_lookup_fmap, lookup_seq_lt by lia. cbn [fmap option_fmap option_map].
    f_equal. apply rgb_values; apply ramp_value; assumption.
Qed.
End ColorScaleFacts.

(** ** Mappings: Object.assign and the scale entries *)

Lemma foldl_insert_union (l : list (string * value)) (m : gmap string value) :
  foldl (fun m kv => <[kv.1 := kv.2]> m) m l
  = foldl (fun m kv => <[kv.1 := kv.2]> m) ∅ l ∪ m.
Proof.
  revert m. induction l as [|[k x] l IH]; intros m; simpl.
  - by rewrite (left_id_L ∅ (∪)).
  - rewrite (IH (<[k:=x]> m)), (IH (<[k:=x]> ∅)).
    rewrite <-(assoc_L (∪)). f_equal.
    rewrite <-insert_union_l. by rewrite (left_id_L ∅ (∪)).
Qed.

Lemma dom_foldl_insert (l : list (string * value)) (m : gmap string value) :
  dom (foldl (fun m kv => <[kv.1 := kv.2]> m) m l) = list_to_set l.*1 ∪ dom m.
Proof.
  revert m. induction l as [|[k x] l IH]; intros m; simpl.
  - by rewrite (left_id_L ∅ (∪)).
  - rewrite IH, dom_insert_L.
    by rewrite (assoc_L (∪)), (comm_L (∪) (list_to_set l.*1) {[k]}).
Qed.

Lemma entries_map_lookup_None (source : value) (k : string) :
  entries_map source !! k = None <-> k ∉ (own_entries source).*1.
Proof.
  rewrite <-not_elem_of_dom. unfold entries_map.
  rewrite dom_foldl_insert, dom_empty_L, (right_id_L ∅ (∪)), elem_of_list_to_set.
  done.
Qed.

Lemma list_to_map_assoc (fields : list (string * value)) (k : string) :
  (list_to_map fields : gmap string value) !! k = assoc k fields.
Proof.
  induction fields as [|[k' v] fields IH]; cbn [list_to_map foldr assoc].
  - apply lookup_empty.
  - change (foldr _ _ fields) with (list_to_map fields : gmap string value).
    destruct (String.eqb_spec k k') as [->|Hne].
    + by rewrite lookup_insert_eq.
    + by rewrite lookup_insert_ne.
Qed.

Lemma Get_property_visible (o : object) (k : string) :
  Get_property o k = default VUndefined (visible o !! k).
Proof.
  unfold Get_property, visible, inherited. rewrite lookup_union.
  destruct (own o !! k) as [v|]; [by destruct (_ !! k)|].
  rewrite (left_id_L None _).
  destruct (proto o) as [| |[]]; rewrite ?lookup_empty; try done.
  by rewrite list_to_map_assoc.
Qed.

Lemma visible_plain (m : gmap string value) : visible (plain m) = m.
Proof. unfold visible, plain. cbn [own proto inherited]. by rewrite (right_id_L ∅ (∪)). Qed.

Lemma Set_property_ordinary (o : object) (k : string) (v : value) :
  k ≠ "__proto__" ->
  Set_property o k v = {| own := <[k := v]> (own o); proto := proto o |}.
Proof.
  intros Hk. unfold Set_property.
  by destruct (String.eqb_spec k "__proto__").
Qed.

Lemma Set_property_lookup (o : object) (k : string) (v : value) (k' : string) :
  k' ≠ "__proto__" -> own (Set_property o k v) !! k' = <[k := v]> (own o) !! k'.
Proof.
  intros Hk'. unfold Set_property.
  destruct (String.eqb_spec k "__proto__") as [->|Hne]; [|done].
  rewrite lookup_insert_ne by done.
  destruct (_ && _); cbn [own]; [|by rewrite lookup_insert_ne].
  unfold set_prototype. by destruct v.
Qed.

Lemma Set_property_proto_state (o o' : object) (k : string) (v : value) :
  proto_state o = proto_state o' ->
  proto_state (Set_property o k v) = proto_state (Set_property o' k v).
Proof.
  unfold proto_state. intros [= Hown Hproto]. unfold Set_property.
  destruct (String.eqb_spec k "__proto__") as [->|Hne]; cbn [andb].
  - rewrite Hown, Hproto.
    destruct (own o' !! "__proto__") eqn:E; cbn [andb own proto].
    + by rewrite !lookup_insert_eq.
    + destruct (hides_accessor (proto o')); cbn [negb own proto].
      * by rewrite !lookup_insert_eq.
      * unfold set_prototype.
        destruct v; cbn [own proto]; rewrite ?Hown, ?Hproto, ?E; reflexivity.
  - cbn [own proto]. rewrite !lookup_insert_ne by done. congruence.
Qed.

Lemma Object_assign_proto_state (o o' : object) (source : value) :
  proto_state o = proto_state o' ->
  proto_state (Object_assign o source) = proto_state (Object_assign o' source).
Proof.
  unfold Object_assign. generalize (own_entries source) as l. intros l.
  revert o o'. induction l as [|[k x] l IH]; intros o o' H; cbn [foldl]; [done|].
  apply IH. cbn [fst snd]. by apply Set_property_proto_state.
Qed.

Lemma Object_assign_lookup (o : object) (source : value) (k : string) :
  k ≠ "__proto__" ->
  own (Object_assign o source) !! k = (entries_map source ∪ own o) !! k.
Proof.
  intros Hk. unfold Object_assign, entries_map. rewrite <-foldl_insert_union.
  generalize (own_entries source) as l. intros l.
  assert (forall (m : gmap string value), own o !! k = m !! k ->
            own (foldl (fun o kv => Set_property o kv.1 kv.2) o l) !! k
            = foldl (fun m kv => <[kv.1 := kv.2]> m) m l !! k) as H; [|by apply H].
  revert o. induction l as [|[k' x] l IH]; intros o m Hm; cbn [foldl]; [done|].
  apply IH. cbn [fst snd]. rewrite Set_property_lookup by done.
  destruct (decide (k' = k)) as [->|Hne].
  - by rewrite !lookup_insert_eq.
  - by rewrite !lookup_insert_ne.
Qed.

Lemma Object_assign_plain (o : object) (source : value) :
  entries_map source !! "__proto__" = None ->
  Object_assign o source = {| own := entries_map source ∪ own o; proto := proto o |}.
Proof.
  rewrite entries_map_lookup_None. unfold Object_assign, entries_map.
  rewrite <-foldl_insert_union.
  generalize (own_entries source) as l. intros l. revert o.
  induction l as [|[k x] l IH]; intros o Hl; cbn [foldl].
  - by destruct o.
  - rewrite fmap_cons, not_elem_of_cons in Hl. destruct Hl as [Hk Hl].
    cbn [fst snd] in *. rewrite Set_property_ordinary by done.
    by rewrite (IH _ Hl).
Qed.

Lemma object_eq (o o' : object) :
  (forall k, k ≠ "__proto__" -> own o !! k = own o' !! k) ->
  proto_state o = proto_state o' -> o = o'.
Proof.
  unfold proto_state. intros Hk [= Hown Hproto]. destruct o as [m p], o' as [m' p'].
  cbn [own proto] in *. f_equal; [|done].
  apply map_eq. intros k. destruct (decide (k = "__proto__")) as [->|Hne]; auto.
Qed.

Lemma scale_key_not_proto (c : string) (i : nat) : scale_key c i ≠ "__proto__".
Proof.
  unfold scale_key. generalize (pretty i) as d. intros d H.
  assert (In "-"%char (list_ascii_of_string (c +:+ "-" +:+ d))) as Hin.
  { clear H. induction c as [|a c IH]; simpl; [by left|by right]. }
  rewrite H in Hin. simpl in Hin. intuition discriminate.
Qed.

Lemma foldl_insert_NoDup (l : list (string * value)) (m : gmap string value) :
  NoDup l.*1 ->
  foldl (fun m kv => <[kv.1 := kv.2]> m) m l = list_to_map l ∪ m.
Proof.
  revert m. induction l as [|[k x] l IH]; intros m Hnd; simpl.
  - by rewrite (left_id_L ∅ (∪)).
  - rewrite fmap_cons in Hnd. apply NoDup_cons in Hnd as [Hk Hnd].
    rewrite (IH _ Hnd), <-insert_union_l. symmetry. apply insert_union_r.
    by apply not_elem_of_list_to_map_1.
Qed.

Lemma entries_map_map_to_list (m : gmap string value) :
  entries_map (VObj (map_to_list m)) = m.
Proof.
  unfold entries_map. cbn [own_entries].
  rewrite foldl_insert_NoDup by apply NoDup_fst_map_to_list.
  by rewrite list_to_map_to_list, (right_id_L ∅ (∪)).
Qed.

Lemma scale_key_inj c (i j : nat) : scale_key c i = scale_key c j -> i = j.
Proof.
  unfold scale_key. intros H.
  apply (inj (String.app c)) in H. apply (inj (String.app "-")) in H.
  by apply (inj pretty) in H.
Qed.

Lemma imap_keys {A} (c : string) (h : A -> value) (l : list A) (n : nat) :
  (imap (fun (i : nat) v => (scale_key c (n + i), h v)) l).*1
  = map (scale_key c) (seq n (length l)).
Proof.
  revert n. induction l as [|x l IH]; intros n; simpl; [done|].
  rewrite Nat.add_0_r. f_equal.
  rewrite <-(IH (S n)). f_equal. apply imap_ext. intros i y _. simpl.
  by rewrite Nat.add_succ_r.
Qed.

#[local] Instance scale_key_Inj c : Inj (=) (=) (scale_key c).
Proof. intros i j. apply scale_key_inj. Qed.

Lemma scale_keys_NoDup c p : NoDup (scale_keys c p).
Proof. unfold scale_keys. apply (NoDup_fmap_2 (scale_key c)), NoDup_seq. Qed.

Lemma role_not_scale_key cp cp' :
  cp ∈ roles -> cp' ∈ roles -> cp'.1 ∉ scale_keys cp.1 cp.2.
Proof.
  assert (bool_decide (Forall (fun cp : string * nat =>
            Forall (fun cp' : string * nat => cp'.1 ∉ scale_keys cp.1 cp.2) roles)
            roles) = true) as H by (vm_compute; reflexivity).
  apply bool_decide_eq_true in H.
  intros Hcp Hcp'. rewrite Forall_forall in H. specialize (H cp Hcp).
  rewrite Forall_forall in H. exact (H cp' Hcp').
Qed.

Lemma scale_keys_disjoint cp cp' k :
  cp ∈ roles -> cp' ∈ roles -> cp ≠ cp' ->
  k ∈ scale_keys cp.1 cp.2 -> k ∉ scale_keys cp'.1 cp'.2.
Proof.
  assert (bool_decide (Forall (fun cp : string * nat =>
            Forall (fun cp' : string * nat =>
              cp = cp' ∨ Forall (fun k => k ∉ scale_keys cp'.1 cp'.2)
                                (scale_keys cp.1 cp.2)) roles) roles) = true)
    as H by (vm_compute; reflexivity).
  apply bool_decide_eq_true in H.
  intros Hcp Hcp' Hne Hk. rewrite Forall_forall in H. specialize (H cp Hcp).
  rewrite Forall_forall in H. destruct (H cp' Hcp') as [?|H']; [done|].
  rewrite Forall_forall in H'. exact (H' k Hk).
Qed.

Section ScaleFacts.
Context {RT : JSRuntime}.

Lemma scale_map_keys c (scale : list string) :
  (imap (fun (i : nat) v => (scale_key c i, VStr v)) scale).*1
  = scale_keys c (length scale).
Proof. exact (imap_keys c VStr scale 0). Qed.

Lemma dom_scale_map c scale :
  dom (scale_map c scale) = list_to_set (scale_keys c (length scale)).
Proof. unfold scale_map. by rewrite dom_list_to_map_L, scale_map_keys. Qed.

Lemma scale_map_snoc c scale v :
  scale_map c (scale ++ [v])
  = <[scale_key c (length scale) := VStr v]> (scale_map c scale).
Proof.
  unfold scale_map. rewrite imap_app. simpl. rewrite Nat.add_0_r.
  apply list_to_map_snoc. rewrite scale_map_keys. unfold scale_keys.
  intros Hin. apply list_elem_of_fmap in Hin as (j & Hj & Hin).
  apply scale_key_inj in Hj. subst j. apply elem_of_seq in Hin. lia.
Qed.

Lemma scale_map_lookup c scale (i : nat) :
  scale_map c scale !! scale_key c i = VStr <$> scale !! i.
Proof.
  induction scale as [|v scale IH] using rev_ind.
  - by rewrite lookup_nil.
  - rewrite scale_map_snoc. destruct (decide (i = length scale)) as [->|Hne].
    + rewrite lookup_insert_eq, lookup_app_r, Nat.sub_diag by lia. done.
    + rewrite lookup_insert_ne by (intros H; apply scale_key_inj in H; lia).
      rewrite IH. destruct (decide (i < length scale)%nat).
      * by rewrite lookup_app_l by lia.
      * rewrite (lookup_ge_None_2 scale) by lia.
        rewrite lookup_ge_None_2; [done|]. rewrite length_app. simpl. lia.
Qed.

Lemma store_scale_eq c scale (st : scale_state) :
  store_scale c scale st
  = ({| own := scale_map c scale ∪ own st.1; proto := proto st.1 |},
     (st.2 + length scale)%nat).
Proof.
  unfold store_scale. induction scale as [|v scale IH] using rev_ind.
  - simpl. rewrite Nat.add_0_r. unfold scale_map. simpl.
    rewrite (left_id_L ∅ (∪)). by destruct st as [[] ?].
  - rewrite imap_app, foldl_app, IH. simpl.
    rewrite Set_property_ordinary by apply scale_key_not_proto. cbn [own proto].
    rewrite Nat.add_0_r, scale_map_snoc, length_app, insert_union_l. simpl.
    f_equal. lia.
Qed.
End ScaleFacts.

(** ** generateScales in closed form *)

Section ExpandFacts.
Context {RT : JSRuntime}.

Lemma eligible_string (b : gmap string value) c :
  eligible b c = true <-> exists s, b !! c = Some (VStr s) /\ s ≠ "".
Proof.
  unfold eligible. split.
  - destruct (b !! c) as [[]|]; simpl; rewrite ?andb_false_r; try discriminate.
    intros H. apply andb_true_iff in H as [H _]. apply negb_true_iff in H.
    eexists; split; [done|]. intros ->. discriminate.
  - intros (s & -> & Hs). simpl. rewrite andb_true_r. apply negb_true_iff.
    by apply String.eqb_neq.
Qed.

Lemma scale_part_lookup_None (b : gmap string value) cp k :
  k ∉ scale_keys cp.1 cp.2 -> scale_part b cp !! k = None.
Proof.
  intros Hk. unfold scale_part.
  destruct (b !! cp.1) as [[]|]; try apply lookup_empty.
  destruct (eligible b cp.1); [|apply lookup_empty].
  apply not_elem_of_dom.
  rewrite dom_scale_map, generateColorScale_length, elem_of_list_to_set. done.
Qed.

Lemma expand_role_eq (o : object) (acc : gmap string value) (n : nat) cp :
  acc !! cp.1 = None ->
  expand_role cp.2 ({| own := acc ∪ own o; proto := proto o |}, n) cp.1
  = ({| own := scale_part (visible o) cp ∪ acc ∪ own o; proto := proto o |},
     (n + scale_count (visible o) cp)%nat).
Proof.
  intros Hacc. unfold expand_role, scale_part, scale_count, eligible.
  rewrite Get_property_visible. unfold visible at 1 2 3. cbn [fst snd own proto].
  rewrite <-(assoc_L (∪)), (lookup_union_r acc _ _ Hacc).
  fold (visible o).
  destruct (visible o !! cp.1) as [[| |?| |s| |]|]; simpl;
    rewrite ?andb_false_r, ?(left_id_L ∅ (∪)), ?Nat.add_0_r; try done.
  rewrite andb_true_r. destruct (String.eqb s ""); simpl.
  - by rewrite (left_id_L ∅ (∪)), Nat.add_0_r.
  - rewrite store_scale_eq, generateColorScale_length. simpl.
    by rewrite !(assoc_L (∪)).
Qed.

Lemma expand_roles_eq (o : object) l acc n :
  (forall cp, cp ∈ l -> cp ∈ roles) ->
  (forall cp, cp ∈ roles -> acc !! cp.1 = None) ->
  foldl (fun st cp => expand_role cp.2 st cp.1)
        ({| own := acc ∪ own o; proto := proto o |}, n) l
  = ({| own := foldl (fun a cp => scale_part (visible o) cp ∪ a) acc l ∪ own o;
        proto := proto o |},
     foldl (fun m cp => (m + scale_count (visible o) cp)%nat) n l).
Proof.
  revert acc n. induction l as [|cp l IH]; intros acc n Hl Hacc; simpl; [done|].
  assert (cp ∈ roles) as Hcp by (apply Hl; left).
  rewrite expand_role_eq by auto. apply IH.
  - intros cp' Hcp'. apply Hl. by right.
  - intros cp' Hcp'. apply lookup_union_None. split; [|by auto].
    apply scale_part_lookup_None. by apply role_not_scale_key.
Qed.

Lemma generate_scales_eq (o : object) :
  generate_scales o
  = ({| own := generated (visible o) ∪ own o; proto := proto o |},
     generated_count (visible o)).
Proof.
  unfold generate_scales, generated, generated_count.
  assert (forall st, foldl (expand_role 4) (foldl (expand_role 22) st neutralColors)
                       fourPointColors
               = foldl (fun st cp => expand_role cp.2 st cp.1) st roles) as ->.
  { intros st. unfold roles. by rewrite foldl_app, !foldl_fmap. }
  destruct o as [m p].
  rewrite <-(left_id_L ∅ (∪) m) at 1.
  rewrite (expand_roles_eq {| own := m; proto := p |}); [done|done|].
  intros. apply lookup_empty.
Qed.

Lemma generateScales_eq (t : theme) :
  generateScales t
  = ({| base := generated (base t) ∪ base t; properties := properties t |},
     generated_count (base t)).
Proof.
  unfold generateScales. rewrite generate_scales_eq.
  fold (plain (base t)). by rewrite visible_plain.
Qed.
End ExpandFacts.

Lemma foldl_union_lookup {X} `{EqDecision X} (f : X -> gmap string value)
      (l : list X) (acc : gmap string value) (k : string) (x0 : X) :
  (forall x, x ∈ l -> x ≠ x0 -> f x !! k = None) ->
  acc !! k = f x0 !! k ∨ (acc !! k = None ∧ x0 ∈ l) ->
  foldl (fun a x => f x ∪ a) acc l !! k = f x0 !! k.
Proof.
  revert acc. induction l as [|a l IH]; intros acc Hl Hacc; simpl.
  - destruct Hacc as [?|[_ Hin]]; [done|]. by apply elem_of_nil in Hin.
  - apply IH; [intros x Hx; apply Hl; by right|].
    destruct (decide (a = x0)) as [->|Hne].
    + left. rewrite lookup_union. destruct (f x0 !! k) eqn:E.
      * by destruct (acc !! k).
      * rewrite (left_id_L None _). destruct Hacc as [?|[? _]]; congruence.
    + rewrite lookup_union_r by (apply Hl; [by left|done]).
      destruct Hacc as [?|[? Hin]]; [by left|right]. split; [done|].
      apply elem_of_cons in Hin as [?|?]; [congruence|done].
Qed.

Lemma foldl_union_lookup_None {X} (f : X -> gmap string value)
      (l : list X) (acc : gmap string value) (k : string) :
  (forall x, x ∈ l -> f x !! k = None) ->
  foldl (fun a x => f x ∪ a) acc l !! k = acc !! k.
Proof.
  revert acc. induction l as [|a l IH]; intros acc Hl; simpl; [done|].
  rewrite IH by (intros x Hx; apply Hl; by right).
  apply lookup_union_r, Hl. by left.
Qed.

Lemma elem_of_all_scale_keys k :
  k ∈ all_scale_keys <-> exists cp, cp ∈ roles ∧ k ∈ scale_keys cp.1 cp.2.
Proof.
  unfold all_scale_keys. rewrite list_elem_of_In, in_flat_map.
  split; intros (cp & H1 & H2); exists cp; by rewrite ?list_elem_of_In in *.
Qed.

Lemma elem_of_roles cp :
  cp ∈ roles <->
  cp = ("--now-color--neutral", 22%nat) ∨ exists c, c ∈ fourPointColors ∧ cp = (c, 4%nat).
Proof.
  unfold roles. rewrite elem_of_app, !list_elem_of_fmap. split.
  - intros [(c & -> & Hc)|(c & -> & Hc)].
    + left. apply list_elem_of_singleton in Hc. by subst.
    + right. eauto.
  - intros [->|(c & Hc & ->)].
    + left. exists "--now-color--neutral". split; [done|]. by left.
    + right. eauto.
Qed.

Section GeneratedFacts.
Context {RT : JSRuntime}.

Lemma generated_lookup_other (b : gmap string value) k :
  k ∉ all_scale_keys -> generated b !! k = None.
Proof.
  intros Hk. unfold generated. rewrite foldl_union_lookup_None; [done|].
  intros cp Hcp. apply scale_part_lookup_None. intros Hin. apply Hk.
  apply elem_of_all_scale_keys. eauto.
Qed.

Lemma generated_lookup_role (b : gmap string value) cp k :
  cp ∈ roles -> k ∈ scale_keys cp.1 cp.2 ->
  generated b !! k = scale_part b cp !! k.
Proof.
  intros Hcp Hk. unfold generated. apply foldl_union_lookup.
  - intros cp' Hcp' Hne. apply scale_part_lookup_None.
    by apply (scale_keys_disjoint cp cp').
  - right. by rewrite lookup_empty.
Qed.

Lemma scale_part_eligible (b : gmap string value) cp s :
  b !! cp.1 = Some (VStr s) -> s ≠ "" ->
  scale_part b cp = scale_map cp.1 (generateColorScale s cp.2).
Proof.
  intros Hb Hs. unfold scale_part. rewrite Hb.
  assert (eligible b cp.1 = true) as -> by (apply eligible_string; eauto). done.
Qed.

Lemma scale_part_not_eligible (b : gmap string value) cp :
  eligible b cp.1 = false -> scale_part b cp = ∅.
Proof.
  intros He. unfold scale_part. rewrite He. by destruct (b !! cp.1) as [[]|].
Qed.

Lemma elem_of_dom_generated (b : gmap string value) k :
  k ∈ dom (generated b) <->
  exists cp, cp ∈ roles ∧ eligible b cp.1 = true ∧ k ∈ scale_keys cp.1 cp.2.
Proof.
  rewrite elem_of_dom. split.
  - intros Hsome. destruct (decide (k ∈ all_scale_keys)) as [Hin|Hout].
    + apply elem_of_all_scale_keys in Hin as (cp & Hcp & Hk).
      exists cp. split; [done|]. split; [|done].
      rewrite (generated_lookup_role b cp k Hcp Hk) in Hsome.
      destruct (eligible b cp.1) eqn:He; [done|].
      rewrite scale_part_not_eligible, lookup_empty in Hsome by done.
      by destruct Hsome.
    + rewrite generated_lookup_other in Hsome by done. by destruct Hsome.
  - intros (cp & Hcp & He & Hk).
    rewrite (generated_lookup_role b cp k Hcp Hk).
    apply eligible_string in He as (s & Hb & Hs).
    rewrite (scale_part_eligible b cp s Hb Hs). apply elem_of_dom.
    rewrite dom_scale_map, generateColorScale_length. by apply elem_of_list_to_set.
Qed.
End GeneratedFacts.

(** ** merge as a fold of overrides *)

Lemma section_map_entries name fields (entries : list (string * value)) :
  assoc name fields = Some (VObj entries) -> NoDup entries.*1 ->
  section_map name (VObj fields) = list_to_map entries.
Proof.
  intros Hsec Hnd. unfold section_map. simpl. rewrite Hsec. simpl.
  unfold entries_map. simpl. rewrite (foldl_insert_NoDup _ _ Hnd).
  by rewrite (right_id_L ∅ (∪)).
Qed.




Lemma assign_section_lookup name (o : object) (t : value) (k : string) :
  k ≠ "__proto__" ->
  own (assign_section name o t) !! k = (section_map name t ∪ own o) !! k.
Proof.
  intros Hk. unfold assign_section, section_map.
  destruct (get_prop t name) as [s|]; [|by rewrite (left_id_L ∅ (∪))].
  destruct (truthy s); [|by rewrite (left_id_L ∅ (∪))].
  by apply Object_assign_lookup.
Qed.

Lemma assign_section_plain name (o : object) (t : value) :
  section_map name t !! "__proto__" = None ->
  assign_section name o t = {| own := section_map name t ∪ own o; proto := proto o |}.
Proof.
  unfold assign_section, section_map.
  destruct (get_prop t name) as [s|];
    [|intros _; rewrite (left_id_L ∅ (∪)); by destruct o].
  destruct (truthy s); [|intros _; rewrite (left_id_L ∅ (∪)); by destruct o].
  apply Object_assign_plain.
Qed.

Lemma assign_section_proto_state name (o o' : object) (t : value) :
  proto_state o = proto_state o' ->
  proto_state (assign_section name o t) = proto_state (assign_section name o' t).
Proof.
  intros H. unfold assign_section. destruct (get_prop t name) as [s|]; [|done].
  destruct (truthy s); [|done]. by apply Object_assign_proto_state.
Qed.

Lemma assign_sections_lookup name (themes : list value) (o : object) (k : string) :
  k ≠ "__proto__" ->
  own (foldl (assign_section name) o themes) !! k
  = match last_defined name k themes with
    | Some v => Some v
    | None => own o !! k
    end.
Proof.
  intros Hk. revert o. induction themes as [|t themes IH]; intros o; simpl; [done|].
  rewrite IH, assign_section_lookup, lookup_union by done.
  destruct (last_defined name k themes); [done|].
  by destruct (section_map name t !! k), (own o !! k).
Qed.

Lemma assign_sections_plain name (themes : list value) (o : object) :
  Forall (fun t => section_map name t !! "__proto__" = None) themes ->
  proto (foldl (assign_section name) o themes) = proto o
  ∧ forall k, own (foldl (assign_section name) o themes) !! k
              = match last_defined name k themes with
                | Some v => Some v
                | None => own o !! k
                end.
Proof.
  intros H. revert o. induction H as [|t themes Ht _ IH]; intros o; simpl; [done|].
  destruct (IH (assign_section name o t)) as [Hp Hk].
  rewrite Hp. rewrite (assign_section_plain name o t Ht) in *. cbn [proto own] in *.
  split; [done|]. intros k. rewrite Hk, lookup_union.
  destruct (last_defined name k themes); [done|].
  by destruct (section_map name t !! k), (own o !! k).
Qed.

Lemma assign_sections_proto_state name (themes : list value) (o o' : object) :
  proto_state o = proto_state o' ->
  proto_state (foldl (assign_section name) o themes)
  = proto_state (foldl (assign_section name) o' themes).
Proof.
  revert o o'. induction themes as [|t themes IH]; intros o o' H; simpl; [done|].
  by apply IH, assign_section_proto_state.
Qed.

Section MergeFacts.
Context {RT : JSRuntime}.

Lemma merge_theme_eq (merged : merged_theme) (t : value) :
  merge_theme merged t
  = if is_nullish t then None
    else Some {| merged_base := assign_section "base" (merged_base merged) t;
                 merged_properties :=
                   assign_section "properties" (merged_properties merged) t |}.
Proof.
  unfold merge_theme, assign_section. destruct merged as [mb mp].
  destruct t;
    cbn [get_prop mbind option_bind is_nullish merged_base merged_properties
         truthy default]; try done.
  destruct (truthy (default VUndefined (assoc "base" fields)));
    destruct (truthy (default VUndefined (assoc "properties" fields)));
    reflexivity.
Qed.

Lemma merge_each_cons (merged : merged_theme) (t : value) (rest : list value) :
  merge_each merged (t :: rest)
  = if is_nullish t then None
    else merge_each
           {| merged_base := assign_section "base" (merged_base merged) t;
              merged_properties :=
                assign_section "properties" (merged_properties merged) t |}
           rest.
Proof. cbn [merge_each]. rewrite merge_theme_eq. by destruct (is_nullish t). Qed.

Lemma merge_each_eq (themes : list value) (merged : merged_theme) :
  merge_each merged themes
  = if forallb (fun t => negb (is_nullish t)) themes
    then Some {| merged_base := foldl (assign_section "base") (merged_base merged) themes;
                 merged_properties :=
                   foldl (assign_section "properties") (merged_properties merged) themes |}
    else None.
Proof.
  revert merged. induction themes as [|t themes IH]; intros merged.
  - by destruct merged.
  - rewrite merge_each_cons. cbn [forallb foldl].
    destruct (is_nullish t); cbn [negb andb]; [done|]. by rewrite IH.
Qed.

Lemma merge_each_is_Some (themes : list value) (merged : merged_theme) :
  Forall (fun t => is_nullish t = false) themes ->
  is_Some (merge_each merged themes).
Proof.
  intros H. rewrite merge_each_eq.
  assert (forallb (fun t => negb (is_nullish t)) themes = true) as ->; [|by eexists].
  apply forallb_forall. intros t Ht. rewrite Forall_forall in H.
  by rewrite (H t) by (by apply list_elem_of_In).
Qed.

Lemma merge_each_lookup (themes : list value) (merged m : merged_theme) (k : string) :
  k ≠ "__proto__" ->
  merge_each merged themes = Some m ->
  own (merged_base m) !! k
  = match last_defined "base" k themes with
    | Some v => Some v
    | None => own (merged_base merged) !! k
    end
  ∧ own (merged_properties m) !! k
    = match last_defined "properties" k themes with
      | Some v => Some v
      | None => own (merged_properties merged) !! k
      end.
Proof.
  intros Hk. rewrite merge_each_eq. destruct (forallb _ themes); [|done].
  intros [= <-]. cbn [merged_base merged_properties].
  by rewrite !assign_sections_lookup.
Qed.

Lemma merge_fold_lookup (themes : list value) (m : merged_theme) (k : string) :
  k ≠ "__proto__" ->
  merge_fold themes = Some m ->
  own (merged_base m) !! k = last_defined "base" k themes
  ∧ own (merged_properties m) !! k = last_defined "properties" k themes.
Proof.
  intros Hk Hm. destruct (merge_each_lookup _ _ _ k Hk Hm) as [Hb Hp].
  rewrite Hb, Hp. cbn [merged_base merged_properties new_object own].
  rewrite !lookup_empty.
  by destruct (last_defined "base" k themes), (last_defined "properties" k themes).
Qed.

Lemma expanded_eq (folded : merged_theme) :
  expanded folded
  = {| base := generated (visible (merged_base folded)) ∪ own (merged_base folded);
       properties := own (merged_properties folded) |}.
Proof. unfold expanded. by rewrite generate_scales_eq. Qed.

Lemma merge_eq (themes : list value) :
  merge themes = expanded <$> merge_fold themes.
Proof. unfold merge. by destruct (merge_fold themes). Qed.

Lemma merge_lookup (themes : list value) (m : theme) (k : string) :
  merge themes = Some m ->
  k ≠ "__proto__" ->
  (k ∉ all_scale_keys -> base m !! k = last_defined "base" k themes)
  ∧ properties m !! k = last_defined "properties" k themes.
Proof.
  rewrite merge_eq. intros Hm Hproto. apply fmap_Some in Hm as (folded & Hf & ->).
  rewrite expanded_eq. cbn [base properties].
  destruct (merge_fold_lookup _ _ k Hproto Hf) as [Hb Hp]. split; [|exact Hp].
  intros Hk. rewrite lookup_union_r; [exact Hb|].
  apply generated_lookup_other, Hk.
Qed.

(** The accumulator of documents none of which has a key [__proto__]: the
    prototypes are those of new objects, and every key holds the value of the
    last document that defines it. *)
Lemma merge_fold_plain (themes : list value) (m : merged_theme) :
  merge_fold themes = Some m ->
  (Forall (fun t => section_map "base" t !! "__proto__" = None) themes ->
   proto (merged_base m) = Object_prototype
   ∧ forall k, own (merged_base m) !! k = last_defined "base" k themes)
  ∧ (Forall (fun t => section_map "properties" t !! "__proto__" = None) themes ->
     proto (merged_properties m) = Object_prototype
     ∧ forall k, own (merged_properties m) !! k = last_defined "properties" k themes).
Proof.
  unfold merge_fold. rewrite merge_each_eq.
  destruct (forallb _ themes); [|done]. intros [= <-].
  cbn [merged_base merged_properties].
  split; intros Hplain.
  - destruct (assign_sections_plain "base" themes new_object Hplain) as [Hp Hk].
    split; [exact Hp|]. intros k. rewrite Hk. cbn [new_object own].
    rewrite lookup_empty. by destruct (last_defined "base" k themes).
  - destruct (assign_sections_plain "properties" themes new_object Hplain) as [Hp Hk].
    split; [exact Hp|]. intros k. rewrite Hk. cbn [new_object own].
    rewrite lookup_empty. by destruct (last_defined "properties" k themes).
Qed.

Lemma visible_default (o : object) : proto o = Object_prototype -> visible o = own o.
Proof. intros H. unfold visible. rewrite H. cbn [inherited]. by rewrite (right_id_L ∅ (∪)). Qed.
End MergeFacts.

(** ** Entries of the expanded theme *)

Lemma elem_of_scale_keys c p (i : nat) : (i < p)%nat -> scale_key c i ∈ scale_keys c p.
Proof.
  intros Hi. unfold scale_keys. apply list_elem_of_fmap. exists i. split; [done|].
  apply elem_of_seq. lia.
Qed.

Ltac elem_of_list :=
  repeat first [ apply list_elem_of_here | apply list_elem_of_further ].

Section EntryFacts.
Context {RT : JSRuntime}.

Lemma generated_scale_entry (b : gmap string value) c p s (i : nat) :
  (c, p) ∈ roles -> b !! c = Some (VStr s) -> s ≠ "" -> (i < p)%nat ->
  (generated b ∪ b) !! scale_key c i = VStr <$> generateColorScale s p !! i.
Proof.
  intros Hcp Hb Hs Hi.
  assert (is_Some (generateColorScale s p !! i)) as [e He].
  { apply lookup_lt_is_Some. by rewrite generateColorScale_length. }
  rewrite He. apply lookup_union_Some_l.
  rewrite (generated_lookup_role b (c, p)); [|done|by apply elem_of_scale_keys].
  rewrite (scale_part_eligible b (c, p) s Hb Hs). cbn [fst snd].
  by rewrite scale_map_lookup, He.
Qed.
End EntryFacts.

Lemma proto_not_scale_key : "__proto__" ∉ all_scale_keys.
Proof.
  intros Hin. apply elem_of_all_scale_keys in Hin as (cp & _ & Hk).
  unfold scale_keys in Hk. apply list_elem_of_fmap in Hk as (i & Hi & _).
  symmetry in Hi. by apply scale_key_not_proto in Hi.
Qed.

Lemma role_not_proto cp : cp ∈ roles -> cp.1 ≠ "__proto__".
Proof.
  intros Hcp. apply elem_of_roles in Hcp as [->|(c & Hc & ->)]; [discriminate|].
  cbn [fst]. unfold fourPointColors in Hc.
  repeat (apply elem_of_cons in Hc as [->|Hc]; [discriminate|]).
  by apply elem_of_nil in Hc.
Qed.

Lemma role_name_not_generated cp : cp ∈ roles -> cp.1 ∉ all_scale_keys.
Proof.
  intros Hcp Hin. apply elem_of_all_scale_keys in Hin as (cp' & Hcp' & Hk).
  exact (role_not_scale_key cp' cp Hcp' Hcp Hk).
Qed.

Lemma startsWith_dashes s :
  startsWith s "--" = true <-> exists name, s = "--" +:+ name.
Proof.
  unfold startsWith. split.
  - destruct s as [|a [|b s]]; try discriminate.
    + unfold String.prefix. destruct (ascii_dec "-" a); discriminate.
    + change (String.prefix "--" (String a (String b s)))
        with (if ascii_dec "-" a
              then if ascii_dec "-" b then String.prefix "" s else false
              else false).
      destruct (ascii_dec "-" a) as [<-|]; [|discriminate].
      destruct (ascii_dec "-" b) as [<-|]; [|discriminate].
      intros _. by exists s.
  - intros [name ->]. by destruct name.
Qed.

(** ** Merging an already merged theme again *)

Lemma section_map_theme_value (m : theme) :
  section_map "base" (theme_value m) = base m
  /\ section_map "properties" (theme_value m) = properties m.
Proof.
  unfold section_map, theme_value. split.
  - change (get_prop _ "base") with (Some (VObj (map_to_list (base m)))).
    cbn [truthy]. by rewrite entries_map_map_to_list.
  - change (get_prop _ "properties") with (Some (VObj (map_to_list (properties m)))).
    cbn [truthy]. by rewrite entries_map_map_to_list.
Qed.

Section RemergeFacts.
Context {RT : JSRuntime}.

Lemma scale_part_ext (b b' : gmap string value) cp :
  b !! cp.1 = b' !! cp.1 -> scale_part b cp = scale_part b' cp.
Proof. intros H. unfold scale_part, eligible. by rewrite H. Qed.

Lemma generated_ext (b b' : gmap string value) :
  (forall cp, cp ∈ roles -> b !! cp.1 = b' !! cp.1) -> generated b = generated b'.
Proof.
  unfold generated. generalize (∅ : gmap string value) as acc.
  induction roles as [|cp l IH]; intros acc H; cbn [foldl]; [done|].
  rewrite (scale_part_ext b b' cp) by (apply H; by left).
  apply IH. intros cp' Hcp'. apply H. by right.
Qed.

(** Generating again after further overrides: the result is that of
    generating once, as long as every role that had a scale still has one. *)
Lemma generated_again (b over : gmap string value) :
  (forall cp, cp ∈ roles -> eligible b cp.1 = true -> eligible (over ∪ b) cp.1 = true) ->
  generated (over ∪ (generated b ∪ b)) ∪ (over ∪ (generated b ∪ b))
  = generated (over ∪ b) ∪ (over ∪ b).
Proof.
  intros Hkeep.
  assert (generated (over ∪ (generated b ∪ b)) = generated (over ∪ b)) as ->.
  { apply generated_ext. intros cp Hcp. rewrite !lookup_union.
    by rewrite (generated_lookup_other b cp.1 (role_name_not_generated cp Hcp)),
               (left_id_L None _). }
  apply map_eq. intros k. rewrite !lookup_union.
  destruct (generated (over ∪ b) !! k) as [v|] eqn:Hg.
  { by destruct (over !! k), (generated b !! k), (b !! k). }
  destruct (generated b !! k) as [w|] eqn:Hgb;
    [|by destruct (over !! k), (b !! k)].
  exfalso.
  assert (k ∈ dom (generated b)) as Hdom by (apply elem_of_dom; eauto).
  apply elem_of_dom_generated in Hdom as (cp & Hcp & He & Hk).
  assert (k ∈ dom (generated (over ∪ b))) as Hdom'.
  { apply elem_of_dom_generated. exists cp. auto. }
  apply elem_of_dom in Hdom' as [? ?]. congruence.
Qed.

(** The same over two objects that differ only in the entries generated
    before the overrides [over] were assigned. *)
Lemma generated_over (b over : gmap string value) (o1 o2 : object) :
  proto_state o1 = proto_state o2 ->
  (forall k, k ≠ "__proto__" -> own o1 !! k = (over ∪ b) !! k) ->
  (forall k, k ≠ "__proto__" -> own o2 !! k = (over ∪ (generated b ∪ b)) !! k) ->
  (forall cp, cp ∈ roles -> eligible b cp.1 = true ->
              eligible (visible o1) cp.1 = true) ->
  generated (visible o2) ∪ own o2 = generated (visible o1) ∪ own o1.
Proof.
  intros Hstate H1 H2 Hkeep.
  assert (proto o1 = proto o2) as Hproto by (by injection Hstate).
  assert (own o1 !! "__proto__" = own o2 !! "__proto__") as Hown by (by injection Hstate).
  assert (generated (visible o2) = generated (visible o1)) as ->.
  { apply generated_ext. intros cp Hcp. unfold visible. rewrite !lookup_union, Hproto.
    f_equal. rewrite H1, H2 by (by apply role_not_proto). rewrite !lookup_union.
    by rewrite (generated_lookup_other b cp.1 (role_name_not_generated cp Hcp)),
               (left_id_L None _). }
  apply map_eq. intros k. rewrite !lookup_union.
  destruct (generated (visible o1) !! k) as [v|] eqn:Hg.
  { by destruct (own o1 !! k), (own o2 !! k). }
  rewrite !(left_id_L None _).
  destruct (decide (k = "__proto__")) as [->|Hne]; [done|].
  rewrite H1, H2 by done. rewrite !lookup_union.
  destruct (generated b !! k) as [w|] eqn:Hgb; [|by rewrite (left_id_L None _)].
  exfalso.
  assert (k ∈ dom (generated b)) as Hdom by (apply elem_of_dom; eauto).
  apply elem_of_dom_generated in Hdom as (cp & Hcp & He & Hk).
  assert (k ∈ dom (generated (visible o1))) as Hdom'.
  { apply elem_of_dom_generated. exists cp. auto. }
  apply elem_of_dom in Hdom' as [? ?]. congruence.
Qed.
End RemergeFacts.

(** ** Counting the generated entries *)

Section CountFacts.
Context {RT : JSRuntime}.

Lemma four_point_role role : role ∈ fourPointColors -> (role, 4%nat) ∈ roles.
Proof. intros H. apply elem_of_roles. right. eauto. Qed.

Lemma neutral_role : ("--now-color--neutral", 22%nat) ∈ roles.
Proof. apply elem_of_roles. by left. Qed.

Lemma generated_count_two_roles (b : gmap string value) (role : string) :
  role ∈ fourPointColors ->
  eligible b "--now-color--neutral" = true ->
  (forall c, c ∈ fourPointColors -> eligible b c = bool_decide (c = role)) ->
  generated_count b = 26%nat.
Proof.
  intros Hrole Hn Hfour.
  unfold generated_count, roles, scale_count.
  cbn [neutralColors fourPointColors map app foldl fst snd].
  rewrite Hn. rewrite !Hfour by elem_of_list.
  unfold fourPointColors in Hrole.
  repeat (apply elem_of_cons in Hrole as [->|Hrole]; [vm_compute; reflexivity|]).
  by apply elem_of_nil in Hrole.
Qed.

Lemma dom_generated_two_roles (b : gmap string value) (role : string) :
  role ∈ fourPointColors ->
  eligible b "--now-color--neutral" = true ->
  (forall c, c ∈ fourPointColors -> eligible b c = bool_decide (c = role)) ->
  dom (generated b)
  = list_to_set (scale_keys "--now-color--neutral" 22 ++ scale_keys role 4).
Proof.
  intros Hrole Hn Hfour. apply set_eq. intros k.
  rewrite elem_of_dom_generated, elem_of_list_to_set, elem_of_app. split.
  - intros (cp & Hcp & He & Hk).
    apply elem_of_roles in Hcp as [->|(c & Hc & ->)]; [by left|right].
    cbn [fst snd] in *. rewrite (Hfour c Hc) in He.
    by apply bool_decide_eq_true in He as ->.
  - intros [Hk|Hk].
    + exists ("--now-color--neutral", 22%nat). auto using neutral_role.
    + exists (role, 4%nat). split; [by apply four_point_role|]. split; [|done].
      cbn [fst]. rewrite (Hfour role Hrole). by apply bool_decide_eq_true.
Qed.

Lemma two_roles_keys_NoDup role :
  role ∈ fourPointColors ->
  NoDup (scale_keys "--now-color--neutral" 22 ++ scale_keys role 4).
Proof.
  intros Hrole. apply NoDup_app. split; [apply scale_keys_NoDup|].
  split; [|apply scale_keys_NoDup].
  intros k Hk.
  apply (scale_keys_disjoint ("--now-color--neutral", 22%nat) (role, 4%nat));
    auto using neutral_role, four_point_role.
Qed.

Lemma generateScales_skips (u : theme) cp k :
  cp ∈ roles -> eligible (base u) cp.1 = false -> k ∈ scale_keys cp.1 cp.2 ->
  base (generateScales u).1 !! k = base u !! k.
Proof.
  intros Hcp He Hk. rewrite generateScales_eq. cbn [fst base].
  apply lookup_union_r.
  by rewrite (generated_lookup_role _ cp k Hcp Hk), scale_part_not_eligible.
Qed.
End CountFacts.

(** ** validate in closed form *)

Lemma truthy_not_nullish v : truthy v = true -> is_nullish v = false.
Proof. by destruct v. Qed.

Lemma falsy_no_entries v : truthy v = false -> own_entries v = [].
Proof.
  destruct v as [| |b|x|s|items|fields]; try done.
  cbn [truthy own_entries]. destruct s; [done|discriminate].
Qed.

Lemma push_errors (bad : string -> bool) (msg : string -> string)
      (entries : list (string * value)) (errs : list string) :
  foldl (fun errs kv => if bad kv.1 then errs ++ [msg kv.1] else errs) errs entries
  = errs ++ map msg (List.filter bad entries.*1).
Proof.
  revert errs. induction entries as [|[k x] entries IH]; intros errs; cbn.
  - by rewrite app_nil_r.
  - rewrite IH. destruct (bad k); cbn; [by rewrite <-app_assoc|done].
Qed.

Lemma check_keys_eq bad msg (section : value) (errs : list string) :
  (if truthy section then check_keys bad msg section errs else Some errs)
  = Some (errs ++ map msg (List.filter bad (own_entries section).*1)).
Proof.
  destruct (truthy section) eqn:E.
  - unfold check_keys, Object_entries. rewrite (truthy_not_nullish _ E).
    cbn [mbind option_bind]. by rewrite push_errors.
  - rewrite (falsy_no_entries _ E). cbn. by rewrite app_nil_r.
Qed.

Lemma bad_property_key_spec key :
  bad_property_key key = true <-> ¬ custom_property key.
Proof.
  unfold bad_property_key, custom_property. rewrite negb_true_iff.
  rewrite <-startsWith_dashes. by destruct (startsWith key "--").
Qed.

Lemma bad_base_key_spec key :
  bad_base_key key = true <-> key ≠ "isDark" ∧ ¬ custom_property key.
Proof.
  unfold bad_base_key.
  change (negb (startsWith key "--")) with (bad_property_key key).
  rewrite andb_true_iff, (bad_property_key_spec key), negb_true_iff, String.eqb_neq.
  tauto.
Qed.

Lemma filter_nonempty (bad : string -> bool) (l : list string) :
  List.filter bad l ≠ [] <-> exists k, k ∈ l ∧ bad k = true.
Proof.
  split.
  - destruct (List.filter bad l) as [|k ks] eqn:E; [done|]. intros _.
    exists k. rewrite list_elem_of_In. apply (filter_In bad). rewrite E. by left.
  - intros (k & Hk & Hbad) E. apply list_elem_of_In in Hk.
    assert (In k (List.filter bad l)) as Hin by (by apply filter_In).
    by rewrite E in Hin.
Qed.

(** The violations of an object-shaped document, in the order [validate]
    records them. *)
Lemma validate_object (v : value) (b p : value) :
  truthy v = true -> typeof v = "object" ->
  get_prop v "base" = Some b -> get_prop v "properties" = Some p ->
  validate v
  = let errs := (if negb (truthy b) && negb (truthy p) then [msg_no_section] else [])
                ++ map msg_base_key (List.filter bad_base_key (own_entries b).*1)
                ++ map msg_property_key (List.filter bad_property_key (own_entries p).*1) in
    Some {| valid := (length errs =? 0)%nat; errors := errs |}.
Proof.
  intros Hv Ht Hb Hp. unfold validate. rewrite Hv, Ht, Hb, Hp.
  cbn [negb orb String.eqb Ascii.eqb Bool.eqb mbind option_bind].
  rewrite check_keys_eq. cbn [mbind option_bind].
  rewrite check_keys_eq. cbn [mbind option_bind].
  by rewrite <-app_assoc.
Qed.

Lemma object_sections (v : value) :
  truthy v = true -> typeof v = "object" ->
  exists b p, get_prop v "base" = Some b ∧ get_prop v "properties" = Some p.
Proof. destruct v; try done; intros _ _; cbn [get_prop]; eauto. Qed.

Lemma not_an_object_iff (v : value) :
  not_an_object v <-> negb (truthy v) || negb (String.eqb (typeof v) "object") = true.
Proof.
  unfold not_an_object. destruct v as [| |b|x|s|items|fields]; cbn;
    rewrite ?orb_true_r; intuition (try discriminate; try congruence).
Qed.

(** * The properties of the specification *)

(** C1: for a base colour with integer channels in [0,255], the 4-point
    scale is, in order: each channel [c] moved to
    round(c + (255 - c) * 0.25); the input itself, unchanged; each channel
    moved to round(c * 0.80); each channel moved to round(c * 0.65). *)
Theorem generateColorScale_4_points `{RT : JSRuntime} (r g b : Z) :
  JSRuntimeLaws RT ->
  0 <= r <= 255 -> 0 <= g <= 255 -> 0 <= b <= 255 ->
  generateColorScale (triple r g b) 4
  = [ triple (spec_lightest r) (spec_lightest g) (spec_lightest b);
      triple r g b;
      triple (spec_darker r) (spec_darker g) (spec_darker b);
      triple (spec_darkest r) (spec_darkest g) (spec_darkest b) ].
Proof. intros laws. exact (four_point_scale laws r g b). Qed.

Lemma generateColorScale_4_points_witness :
  generateColorScale (RT := decimal_runtime) (triple 10 130 250) 4
  = [ triple (spec_lightest 10) (spec_lightest 130) (spec_lightest 250);
      triple 10 130 250;
      triple (spec_darker 10) (spec_darker 130) (spec_darker 250);
      triple (spec_darkest 10) (spec_darkest 130) (spec_darkest 250) ].
Proof.
  apply (generateColorScale_4_points (RT := decimal_runtime) 10 130 250
           decimal_runtime_laws); lia.
Defined.

(** C2: for a base colour with integer channels in [0,255], the 22-point
    scale has 22 entries, starts with (255,255,255), ends with (0,0,0), and
    at every interior index i of 1..20, with t = i/21, holds per channel
    round(255 + (c - 255) * (t / 0.5)) when t < 0.5 and
    round(c * (1 - (t - 0.5) / 0.5)) otherwise. *)
Theorem generateColorScale_22_points `{RT : JSRuntime} (r g b : Z) :
  JSRuntimeLaws RT ->
  0 <= r <= 255 -> 0 <= g <= 255 -> 0 <= b <= 255 ->
  length (generateColorScale (triple r g b) 22) = 22%nat
  /\ generateColorScale (triple r g b) 22 !! 0%nat = Some "255,255,255"
  /\ generateColorScale (triple r g b) 22 !! 21%nat = Some "0,0,0"
  /\ forall i : nat, (1 <= i <= 20)%nat ->
       generateColorScale (triple r g b) 22 !! i
       = Some (triple (spec_neutral (Z.of_nat i) r) (spec_neutral (Z.of_nat i) g)
                      (spec_neutral (Z.of_nat i) b)).
Proof.
  intros laws Hr Hg Hb. split; [apply generateColorScale_length|].
  exact (neutral_scale laws r g b Hr Hg Hb).
Qed.

Lemma generateColorScale_22_points_witness :
  length (generateColorScale (RT := decimal_runtime) (triple 61 74 80) 22) = 22%nat
  /\ generateColorScale (RT := decimal_runtime) (triple 61 74 80) 22 !! 0%nat
     = Some "255,255,255"
  /\ generateColorScale (RT := decimal_runtime) (triple 61 74 80) 22 !! 21%nat
     = Some "0,0,0"
  /\ forall i : nat, (1 <= i <= 20)%nat ->
       generateColorScale (RT := decimal_runtime) (triple 61 74 80) 22 !! i
       = Some (triple (spec_neutral (Z.of_nat i) 61) (spec_neutral (Z.of_nat i) 74)
                      (spec_neutral (Z.of_nat i) 80)).
Proof.
  apply (generateColorScale_22_points (RT := decimal_runtime) 61 74 80
           decimal_runtime_laws); lia.
Defined.




(** C4, as the specification states it, fails: the lightest entry of the
    scale of 61,74,80 is not 144,152,155. *)
Lemma primary_scale_claimed_is_wrong :
  ~ (generateColorScale (RT := decimal_runtime) "61,74,80" 4
     = ["144,152,155"; "61,74,80"; "49,59,64"; "40,48,52"]).
Proof. intros H. vm_compute in H. discriminate H. Qed.

(** C4, amended: the base entry [--now-color--primary: 61,74,80] expands to
    the 4-point scale 110,119,124 / 61,74,80 / 49,59,64 / 40,48,52 (the
    first entry is 25% towards white, as the 4-point formula says), stored
    at the keys [--now-color--primary-0] to [--now-color--primary-3]. *)
Theorem primary_scale_example `{RT : JSRuntime} :
  JSRuntimeLaws RT ->
  generateColorScale "61,74,80" 4
  = ["110,119,124"; "61,74,80"; "49,59,64"; "40,48,52"]
  /\ exists m, merge [primary_doc] = Some m
     /\ base m !! "--now-color--primary-0" = Some (VStr "110,119,124")
     /\ base m !! "--now-color--primary-1" = Some (VStr "61,74,80")
     /\ base m !! "--now-color--primary-2" = Some (VStr "49,59,64")
     /\ base m !! "--now-color--primary-3" = Some (VStr "40,48,52").
Proof.
  intros laws.
  assert (generateColorScale "61,74,80" 4
          = ["110,119,124"; "61,74,80"; "49,59,64"; "40,48,52"]) as Hscale.
  { assert ("61,74,80" = triple 61 74 80) as -> by (vm_compute; reflexivity).
    rewrite (four_point_scale laws) by lia. vm_compute. reflexivity. }
  split; [exact Hscale|].
  rewrite merge_eq. cbn [merge_fold merge_each]. rewrite merge_theme_eq.
  cbn [primary_doc is_nullish mbind option_bind fmap option_fmap option_map base].
  eexists. split; [reflexivity|]. cbn [base].
  assert ((section_map "base" primary_doc ∪ ∅) !! "--now-color--primary"
          = Some (VStr "61,74,80")) as Hb by (vm_compute; reflexivity).
  assert (("--now-color--primary", 4%nat) ∈ roles) as Hrole.
  { apply elem_of_roles. right. eexists. split; [|done].
    elem_of_list. }
  assert (forall i : nat, (i < 4)%nat ->
            (generated (section_map "base" primary_doc ∪ ∅)
             ∪ (section_map "base" primary_doc ∪ ∅))
            !! scale_key "--now-color--primary" i
            = VStr <$> generateColorScale "61,74,80" 4 !! i) as Hentry.
  { intros i Hi. by apply generated_scale_entry. }
  rewrite Hscale in Hentry.
  split; [exact (Hentry 0%nat ltac:(lia))|].
  split; [exact (Hentry 1%nat ltac:(lia))|].
  split; [exact (Hentry 2%nat ltac:(lia))|].
  exact (Hentry 3%nat ltac:(lia)).
Qed.

Lemma primary_scale_example_witness :
  generateColorScale (RT := decimal_runtime) "61,74,80" 4
  = ["110,119,124"; "61,74,80"; "49,59,64"; "40,48,52"]
  /\ exists m, merge (RT := decimal_runtime) [primary_doc] = Some m
     /\ base m !! "--now-color--primary-0" = Some (VStr "110,119,124")
     /\ base m !! "--now-color--primary-1" = Some (VStr "61,74,80")
     /\ base m !! "--now-color--primary-2" = Some (VStr "49,59,64")
     /\ base m !! "--now-color--primary-3" = Some (VStr "40,48,52").
Proof. exact (primary_scale_example (RT := decimal_runtime) decimal_runtime_laws). Defined.

(** C5, as the specification states it, fails: merging an already expanded
    theme keeps the scale entries of a role that the third document then
    turns into something that is not a colour string. *)
Lemma merge_pairwise_differs :
  ~ (merge (RT := decimal_runtime) [primary_doc; empty_doc; marker_doc]
     = merge_pairwise (RT := decimal_runtime) primary_doc empty_doc marker_doc).
Proof.
  intros H.
  assert ((merge (RT := decimal_runtime) [primary_doc; empty_doc; marker_doc]
             ≫= fun m => base m !! "--now-color--primary-0")
          = (merge_pairwise (RT := decimal_runtime) primary_doc empty_doc marker_doc
             ≫= fun m => base m !! "--now-color--primary-0")) as Hk
    by (rewrite H; reflexivity).
  vm_compute in Hk. discriminate Hk.
Qed.

(** The pairwise merge also loses a prototype: the first document makes
    a colour document the prototype of the merged base, from which the one
    call reads the role and rewrites the entry that the third document
    supplies; merged pairwise, the entry of the third document stays. *)
Example merge_pairwise_differs_by_prototype :
  (merge (RT := decimal_runtime) [inherited_role_doc; empty_doc; scale_entry_doc]
     ≫= fun m => base m !! "--now-color--primary-1") = Some (VStr "1,2,3")
  /\ (merge_pairwise (RT := decimal_runtime) inherited_role_doc empty_doc scale_entry_doc
        ≫= fun m => base m !! "--now-color--primary-1") = Some (VStr "9,9,9").
Proof. split; vm_compute; reflexivity. Qed.

(** C5, amended: merging three documents in one call and merging them
    pairwise, left to right, give the same merged and expanded theme,
    provided no section of the first two documents has a key [__proto__],
    and every recognised role that holds a non-empty string after the first
    two documents still holds one once the third is applied. *)
Theorem merge_pairwise_eq `{RT : JSRuntime} (A B C : value) :
  section_map "base" A !! "__proto__" = None ->
  section_map "properties" A !! "__proto__" = None ->
  section_map "base" B !! "__proto__" = None ->
  section_map "properties" B !! "__proto__" = None ->
  (forall ab abc cp,
     merge_fold [A; B] = Some ab -> merge_fold [A; B; C] = Some abc ->
     cp ∈ roles ->
     eligible (visible (merged_base ab)) cp.1 = true ->
     eligible (visible (merged_base abc)) cp.1 = true) ->
  merge [A; B; C] = merge_pairwise A B C.
Proof.
  intros HbA HpA HbB HpB Hkeep. unfold merge_pairwise.
  rewrite (merge_eq [A; B]), (merge_eq [A; B; C]).
  unfold merge_fold in *. rewrite !merge_each_cons in *. cbn [merge_each] in *.
  destruct (is_nullish A); [reflexivity|].
  destruct (is_nullish B); [reflexivity|].
  cbn [merged_base merged_properties] in *.
  rewrite (assign_section_plain "base" _ A HbA),
          (assign_section_plain "properties" _ A HpA) in *.
  rewrite (assign_section_plain "base" _ B HbB),
          (assign_section_plain "properties" _ B HpB) in *.
  cbn [new_object own proto] in *. rewrite !(right_id_L ∅ (∪)) in *.
  set (ab := section_map "base" B ∪ section_map "base" A) in *.
  set (pab := section_map "properties" B ∪ section_map "properties" A) in *.
  cbn [mbind option_bind fmap option_fmap option_map] in *.
  rewrite (expanded_eq {| merged_base := _; merged_properties := _ |}).
  cbn [merged_base merged_properties own].
  fold (plain ab). rewrite visible_plain.
  rewrite merge_eq. unfold merge_fold. rewrite !merge_each_cons. cbn [merge_each].
  change (is_nullish (theme_value _)) with false. cbv iota.
  destruct (is_nullish C); [reflexivity|].
  cbn [merged_base merged_properties fmap option_fmap option_map] in *.
  assert ((generated ab ∪ ab) !! "__proto__" = None) as Hgen.
  { apply lookup_union_None. split; [by apply generated_lookup_other, proto_not_scale_key|].
    unfold ab. apply lookup_union_None. by split. }
  assert (pab !! "__proto__" = None) as Hpab
    by (unfold pab; apply lookup_union_None; by split).
  rewrite (assign_section_plain "base" new_object (theme_value _)),
          (assign_section_plain "properties" new_object (theme_value _));
    rewrite ?(proj1 (section_map_theme_value _)), ?(proj2 (section_map_theme_value _));
    cbn [base properties]; try assumption.
  cbn [new_object own proto]. rewrite !(right_id_L ∅ (∪)).
  fold (plain (generated ab ∪ ab)). fold (plain pab).
  f_equal. rewrite !expanded_eq. cbn [merged_base merged_properties]. f_equal.
  symmetry. apply (generated_over ab (section_map "base" C)).
  - apply assign_section_proto_state. unfold proto_state, plain. cbn [own proto].
    rewrite Hgen. f_equal. unfold ab. apply lookup_union_None. by split.
  - intros k Hk. rewrite !assign_section_lookup by done. reflexivity.
  - intros k Hk. rewrite !assign_section_lookup by done. reflexivity.
  - intros cp Hcp He.
    apply (Hkeep _ _ cp eq_refl eq_refl Hcp). cbn [merged_base].
    fold (plain ab). by rewrite visible_plain.
Qed.

Lemma merge_pairwise_eq_witness :
  merge (RT := decimal_runtime) [primary_doc; empty_doc; shared_doc]
  = merge_pairwise (RT := decimal_runtime) primary_doc empty_doc shared_doc.
Proof.
  apply (merge_pairwise_eq (RT := decimal_runtime) primary_doc empty_doc shared_doc);
    try reflexivity.
  intros ab abc cp Hab Habc Hcp.
  destruct (proj1 (merge_fold_plain [primary_doc; empty_doc] ab Hab)) as [Hp2 Hk2];
    [repeat constructor|].
  destruct (proj1 (merge_fold_plain [primary_doc; empty_doc; shared_doc] abc Habc))
    as [Hp3 Hk3]; [repeat constructor|].
  unfold eligible, visible. rewrite !lookup_union, Hp2, Hp3, Hk2, Hk3.
  cbn [inherited]. rewrite !lookup_empty, !(right_id_L None _).
  apply elem_of_roles in Hcp as [->|(c & Hc & ->)].
  - vm_compute. discriminate.
  - repeat (apply elem_of_cons in Hc as [->|Hc]; [vm_compute; congruence|]).
    by apply elem_of_nil in Hc.
Defined.

(** C6: [validate] returns a report for every input and never throws; the
    report is valid exactly when it lists no error; it lists an error
    exactly when the input is absent or not an object, or holds neither a
    base nor a properties section, or has a base key other than [isDark]
    that does not start with [--], or has a properties key that does not
    start with [--]; every such violation of an object is recorded in the
    one report.  [{ base: { "bad": "1,2,3" } }] is invalid with an error
    that names the key [bad], and [{ base: { "--ok": "1,2,3" } }] is valid. *)
Theorem validate_report (v : value) :
  exists r,
    validate v = Some r
    /\ (valid r = true <-> errors r = [])
    /\ (errors r ≠ [] <->
          not_an_object v
          ∨ (¬ section_present "base" v ∧ ¬ section_present "properties" v)
          ∨ (exists k, k ∈ section_keys "base" v ∧ k ≠ "isDark" ∧ ¬ custom_property k)
          ∨ (exists k, k ∈ section_keys "properties" v ∧ ¬ custom_property k))
    /\ (not_an_object v -> r = {| valid := false; errors := [msg_not_object] |})
    /\ (¬ not_an_object v ->
          (¬ section_present "base" v ∧ ¬ section_present "properties" v ->
             msg_no_section ∈ errors r)
          ∧ (forall k, k ∈ section_keys "base" v -> k ≠ "isDark" ->
                       ¬ custom_property k -> msg_base_key k ∈ errors r)
          ∧ (forall k, k ∈ section_keys "properties" v ->
                       ¬ custom_property k -> msg_property_key k ∈ errors r))
    /\ validate bad_key_doc
       = Some {| valid := false; errors := [msg_base_key "bad"] |}
    /\ validate good_key_doc = Some {| valid := true; errors := [] |}.
Proof.
  destruct (negb (truthy v) || negb (String.eqb (typeof v) "object")) eqn:Hshape.
  - (* absent or not an object: the early return *)
    exists {| valid := false; errors := [msg_not_object] |}.
    assert (not_an_object v) as Hno by (by apply not_an_object_iff).
    split; [unfold validate; by rewrite Hshape|].
    split; [cbn [valid errors]; split; discriminate|].
    split; [cbn [errors]; split; [by left|discriminate]|].
    split; [done|]. split; [done|]. split; reflexivity.
  - (* an object: the violations are collected *)
    assert (¬ not_an_object v) as Hobj by (rewrite not_an_object_iff, Hshape; discriminate).
    apply orb_false_iff in Hshape as [Hv Ht].
    apply negb_false_iff in Hv, Ht. apply String.eqb_eq in Ht.
    destruct (object_sections v Hv Ht) as (b & p & Hb & Hp).
    rewrite (validate_object v b p Hv Ht Hb Hp). cbv zeta.
    eexists. split; [reflexivity|]. cbn [valid errors].
    assert (forall name s, get_prop v name = Some s ->
              (section_present name v <-> truthy s = true)) as Hpresent.
    { intros name s Hs. unfold section_present. rewrite Hs. split.
      - by intros (s' & [= <-] & Htrue).
      - eauto. }
    pose proof (Hpresent _ _ Hb) as Hpb. pose proof (Hpresent _ _ Hp) as Hpp.
    assert (section_keys "base" v = (own_entries b).*1) as Hkb
      by (unfold section_keys; by rewrite Hb).
    assert (section_keys "properties" v = (own_entries p).*1) as Hkp
      by (unfold section_keys; by rewrite Hp).
    rewrite Hkb, Hkp, Hpb, Hpp.
    set (missing := if negb (truthy b) && negb (truthy p) then [msg_no_section] else []).
    set (eb := List.filter bad_base_key (own_entries b).*1).
    set (ep := List.filter bad_property_key (own_entries p).*1).
    assert (missing ≠ [] <-> ¬ truthy b = true ∧ ¬ truthy p = true) as Hmissing.
    { unfold missing. destruct (truthy b), (truthy p); cbn; intuition congruence. }
    assert (eb ≠ [] <->
            exists k, k ∈ (own_entries b).*1 ∧ k ≠ "isDark" ∧ ¬ custom_property k)
      as Heb.
    { unfold eb. rewrite filter_nonempty.
      split; intros (k & Hk & Hbad); exists k; split; try done;
        by apply bad_base_key_spec. }
    assert (ep ≠ [] <-> exists k, k ∈ (own_entries p).*1 ∧ ¬ custom_property k)
      as Hep.
    { unfold ep. rewrite filter_nonempty.
      split; intros (k & Hk & Hbad); exists k; split; try done;
        by apply bad_property_key_spec. }
    split.
    { rewrite Nat.eqb_eq. split; [apply nil_length_inv|by intros ->]. }
    split.
    { rewrite <-Hmissing, <-Heb, <-Hep. split.
      - intros Hne. right.
        destruct missing; [|by left]. destruct eb; [|by right; left].
        destruct ep; [by destruct Hne|by right; right].
      - intros [?|[Hm|[He|He]]] Hnil; [done|..];
          apply app_eq_nil in Hnil as [Hm' Hnil]; [done|..];
          apply app_eq_nil in Hnil as [He1 He2];
          apply fmap_nil_inv in He1; apply fmap_nil_inv in He2; done. }
    split; [done|].
    split; [|split; reflexivity].
    intros _. split; [|split].
    + intros Hm. apply Hmissing in Hm. apply elem_of_app. left.
      unfold missing in *. destruct (negb (truthy b) && negb (truthy p)); [by left|done].
    + intros k Hk Hd Hc. apply elem_of_app. right. apply elem_of_app. left.
      apply list_elem_of_fmap. exists k. split; [done|].
      apply list_elem_of_In, filter_In. split; [by apply list_elem_of_In|].
      by apply bad_base_key_spec.
    + intros k Hk Hc. apply elem_of_app. right. apply elem_of_app. right.
      apply list_elem_of_fmap. exists k. split; [done|].
      apply list_elem_of_In, filter_In. split; [by apply list_elem_of_In|].
      by apply bad_property_key_spec.
Qed.

(** C7: when the base mapping holds a non-empty string for the neutral role
    and for exactly one of the 4-point roles, and none of their scale keys
    yet, scale expansion writes 22 + 4 = 26 entries, all of them new: the
    keys [--now-color--neutral-0 .. -21] and [role-0 .. role-3]; what the
    mapping held stays.  A role that is absent from the base mapping, or
    whose value is not a string, gets no entry, and nothing fails. *)
Theorem generateScales_adds_26_keys `{RT : JSRuntime}
        (t : theme) (role sN s4 : string) :
  role ∈ fourPointColors ->
  base t !! "--now-color--neutral" = Some (VStr sN) -> sN ≠ "" ->
  base t !! role = Some (VStr s4) -> s4 ≠ "" ->
  (forall c, c ∈ fourPointColors -> c ≠ role -> base t !! c = None) ->
  (forall k, k ∈ scale_keys "--now-color--neutral" 22 ++ scale_keys role 4 ->
             base t !! k = None) ->
  (generateScales t).2 = 26%nat
  /\ dom (base (generateScales t).1)
     = dom (base t)
       ∪ list_to_set (scale_keys "--now-color--neutral" 22 ++ scale_keys role 4)
  /\ size (base (generateScales t).1) = (size (base t) + 26)%nat
  /\ base t ⊆ base (generateScales t).1
  /\ properties (generateScales t).1 = properties t
  /\ (forall (u : theme) (c : string) (p : nat) (k : string),
        (c, p) ∈ roles ->
        base u !! c = None
        ∨ (exists v, base u !! c = Some v /\ typeof v ≠ "string") ->
        k ∈ scale_keys c p ->
        base (generateScales u).1 !! k = base u !! k).
Proof.
  intros Hrole HN HsN H4 Hs4 Hothers Hnew.
  assert (eligible (base t) "--now-color--neutral" = true) as HeN
    by (apply eligible_string; eauto).
  assert (forall c, c ∈ fourPointColors ->
                    eligible (base t) c = bool_decide (c = role)) as Hfour.
  { intros c Hc. destruct (decide (c = role)) as [->|Hne].
    - rewrite bool_decide_eq_true_2 by done. apply eligible_string; eauto.
    - rewrite bool_decide_eq_false_2 by done.
      unfold eligible. by rewrite (Hothers c Hc Hne). }
  pose proof (dom_generated_two_roles (base t) role Hrole HeN Hfour) as Hdom.
  assert (generated (base t) ##ₘ base t) as Hdisj.
  { apply map_disjoint_dom. rewrite Hdom. intros k Hk Hb.
    apply elem_of_list_to_set in Hk. apply elem_of_dom in Hb as [v Hv].
    rewrite (Hnew k Hk) in Hv. discriminate Hv. }
  rewrite generateScales_eq. cbn [fst snd base properties].
  split; [by apply (generated_count_two_roles _ role)|].
  split; [by rewrite dom_union_L, Hdom, (comm_L (∪))|].
  split.
  { rewrite (map_size_disj_union _ _ Hdisj), <-size_dom, Hdom.
    rewrite size_list_to_set by (by apply two_roles_keys_NoDup).
    rewrite length_app. unfold scale_keys. rewrite !length_map, !length_seq. lia. }
  split; [by apply map_union_subseteq_r|].
  split; [reflexivity|].
  intros u c p k Hcp Hskip Hk.
  apply (generateScales_skips u (c, p) k Hcp); [|exact Hk].
  unfold eligible. cbn [fst]. destruct Hskip as [->|(v & -> & Hv)]; [reflexivity|].
  cbn [default]. destruct v; try reflexivity; try (by rewrite andb_false_r).
  by destruct Hv.
Qed.

Lemma generateScales_adds_26_keys_witness :
  (generateScales (RT := decimal_runtime)
     {| base := two_roles_base; properties := ∅ |}).2 = 26%nat
  /\ size (base (generateScales (RT := decimal_runtime)
                   {| base := two_roles_base; properties := ∅ |}).1) = 28%nat.
Proof.
  destruct (generateScales_adds_26_keys (RT := decimal_runtime)
              {| base := two_roles_base; properties := ∅ |}
              "--now-color--link" "128,128,128" "0,0,255")
    as (Hcount & _ & Hsize & _).
  - elem_of_list.
  - vm_compute. reflexivity.
  - discriminate.
  - vm_compute. reflexivity.
  - discriminate.
  - intros c Hc Hne. unfold fourPointColors in Hc.
    repeat (apply elem_of_cons in Hc as [->|Hc];
            [first [by destruct Hne | vm_compute; reflexivity]|]).
    by apply elem_of_nil in Hc.
  - intros k Hk. apply elem_of_app in Hk as [Hk|Hk].
    + unfold scale_keys in Hk. cbn [seq map] in Hk.
      repeat (apply elem_of_cons in Hk as [->|Hk]; [vm_compute; reflexivity|]).
      by apply elem_of_nil in Hk.
    + unfold scale_keys in Hk. cbn [seq map] in Hk.
      repeat (apply elem_of_cons in Hk as [->|Hk]; [vm_compute; reflexivity|]).
      by apply elem_of_nil in Hk.
  - split; [exact Hcount|]. rewrite Hsize. vm_compute. reflexivity.
Defined.

(** C8: [resolveValue] returns every value that is not a string as it is,
    wraps a string that begins with the two characters [--] as
    [var(<that string>)], and returns every other string as it is; so
    [--now-color--neutral-0] becomes [var(--now-color--neutral-0)], [16px]
    stays [16px] and the number 42 stays 42. *)
Theorem resolveValue_cases :
  (forall v, (forall s, v ≠ VStr s) -> resolveValue v = v)
  /\ (forall name,
        resolveValue (VStr ("--" +:+ name)) = VStr ("var(" +:+ ("--" +:+ name) +:+ ")"))
  /\ (forall s, (forall name, s ≠ "--" +:+ name) -> resolveValue (VStr s) = VStr s)
  /\ resolveValue (VStr "--now-color--neutral-0") = VStr "var(--now-color--neutral-0)"
  /\ resolveValue (VStr "16px") = VStr "16px"
  /\ resolveValue (VNum 42%float) = VNum 42%float.
Proof.
  split; [|split; [|split; [|repeat split]]].
  - intros v Hv. destruct v; try reflexivity. by destruct (Hv s).
  - intros name. unfold resolveValue. cbn [typeof String.eqb negb].
    assert (startsWith ("--" +:+ name) "--" = true) as ->; [|reflexivity].
    apply startsWith_dashes. by exists name.
  - intros s Hs. unfold resolveValue. cbn [typeof String.eqb negb].
    destruct (startsWith s "--") eqn:E; [|reflexivity].
    apply startsWith_dashes in E as [name ->]. by destruct (Hs name).
Qed.

(** C9, as the specification states it, fails: the shape-and-form
    document supplies [--now-color--primary-1], a key that the colours
    document has too, and the merged theme holds neither value under it but
    the scale entry generated from the colour of the role. *)
Lemma loadTheme_rewrites_scale_key :
  ~ (forall k v,
       section_map "base" scale_entry_doc !! k = Some v ->
       exists m,
         (loadTheme (RT := decimal_runtime) stale_entry_loader record_property
                    theme_value "polaris" "light" VNull []).2 = Some m
         /\ base m !! k = Some v).
Proof.
  intros H.
  destruct (H "--now-color--primary-1" (VStr "9,9,9")) as (m & Hm & Hk);
    [vm_compute; reflexivity|].
  assert (((loadTheme (RT := decimal_runtime) stale_entry_loader record_property
                      theme_value "polaris" "light" VNull []).2
             ≫= fun m => base m !! "--now-color--primary-1")
          = Some (VStr "61,74,80")) as Hentry by (vm_compute; reflexivity).
  rewrite Hm in Hentry. cbn [mbind option_bind] in Hentry. congruence.
Qed.

(** C9, amended: [loadTheme] hands [merge] exactly three documents, in
    this order: the colours of the variant, then the shared shape-and-form
    document, then the shared typography document; the merged theme is then
    applied and returned.  As the last document that defines a key wins, an
    entry of a shared document replaces the entry of the colours document
    with the same key, and the colours entry is kept only where neither
    shared document defines the key; this holds for every key but
    [__proto__], and in the base but for the [role-index] keys of the roles
    whose scale is generated. *)
Theorem loadTheme_merge_order `{RT : JSRuntime}
        (loadSingleTheme : string -> option value) (style : Type)
        (setProperty : string -> value -> style -> option style)
        (enumerate : theme -> value)
        (themeName variant : string) (colors shape typography : value)
        (active : value) (root : style) :
  loadSingleTheme ("themes/" +:+ themeName +:+ "/variants/" +:+ variant +:+ "/colors.json")
  = Some colors ->
  loadSingleTheme ("themes/" +:+ themeName +:+ "/shape-and-form.json") = Some shape ->
  loadSingleTheme ("themes/" +:+ themeName +:+ "/typography.json") = Some typography ->
  loadTheme loadSingleTheme setProperty enumerate themeName variant active root
  = merge_and_apply setProperty enumerate [colors; shape; typography]
                    (theme_paths themeName variant) active root
  /\ (forall m,
        (loadTheme loadSingleTheme setProperty enumerate themeName variant active root).2
        = Some m <->
        merge [colors; shape; typography] = Some m
        ∧ (applyTheme setProperty (enumerate m) root).2 = Some ())
  /\ forall folded, merge_fold [colors; shape; typography] = Some folded ->
       merge [colors; shape; typography] = Some (expanded folded)
       /\ (forall k v, k ≠ "__proto__" ->
                       section_map "properties" typography !! k = Some v ->
                       properties (expanded folded) !! k = Some v)
       /\ (forall k v, k ≠ "__proto__" ->
                       section_map "properties" shape !! k = Some v ->
                       section_map "properties" typography !! k = None ->
                       properties (expanded folded) !! k = Some v)
       /\ (forall k, k ≠ "__proto__" ->
                     section_map "properties" shape !! k = None ->
                     section_map "properties" typography !! k = None ->
                     properties (expanded folded) !! k
                     = section_map "properties" colors !! k)
       /\ (forall k v, k ≠ "__proto__" -> ~ regenerated folded k ->
                       section_map "base" typography !! k = Some v ->
                       base (expanded folded) !! k = Some v)
       /\ (forall k v, k ≠ "__proto__" -> ~ regenerated folded k ->
                       section_map "base" shape !! k = Some v ->
                       section_map "base" typography !! k = None ->
                       base (expanded folded) !! k = Some v)
       /\ (forall k, k ≠ "__proto__" -> ~ regenerated folded k ->
                     section_map "base" shape !! k = None ->
                     section_map "base" typography !! k = None ->
                     base (expanded folded) !! k = section_map "base" colors !! k).
Proof.
  intros Hc Hs Ht.
  assert (loadTheme loadSingleTheme setProperty enumerate themeName variant active root
          = merge_and_apply setProperty enumerate [colors; shape; typography]
                            (theme_paths themeName variant) active root) as Hload.
  { unfold loadTheme, loadThemeSet. cbn [mapM]. rewrite Hc, Hs, Ht. reflexivity. }
  split; [exact Hload|]. split.
  - intros m. rewrite Hload. unfold merge_and_apply.
    destruct (merge [colors; shape; typography]) as [merged|]; cbn [snd].
    + destruct (applyTheme setProperty (enumerate merged) root) as [root' [[]|]] eqn:Happly;
        cbn [snd].
      * split; [intros [= <-]; by rewrite Happly|by intros [[= <-] _]].
      * split; [done|]. intros [[= <-] H]. by rewrite Happly in H.
    + split; [done|]. by intros [? _].
  - intros folded Hf.
    assert (forall k, k ≠ "__proto__" ->
              own (merged_base folded) !! k
              = last_defined "base" k [colors; shape; typography]
              /\ own (merged_properties folded) !! k
                 = last_defined "properties" k [colors; shape; typography])
      as Hlook by (intros k Hk; by apply merge_fold_lookup).
    assert (forall k, ~ regenerated folded k ->
              base (expanded folded) !! k = own (merged_base folded) !! k) as Hbase.
    { intros k Hk. rewrite expanded_eq. cbn [base]. apply lookup_union_r.
      apply not_elem_of_dom. intros Hdom. apply Hk.
      by apply elem_of_dom_generated in Hdom. }
    assert (properties (expanded folded) = own (merged_properties folded)) as Hprops
      by (by rewrite expanded_eq).
    cbn [last_defined] in Hlook.
    split; [by rewrite merge_eq, Hf|].
    repeat split.
    + intros k v Hk Hv. rewrite Hprops, (proj2 (Hlook k Hk)), Hv. reflexivity.
    + intros k v Hk Hv Hn. rewrite Hprops, (proj2 (Hlook k Hk)), Hn, Hv. reflexivity.
    + intros k Hk Hn1 Hn2. rewrite Hprops, (proj2 (Hlook k Hk)), Hn1, Hn2. reflexivity.
    + intros k v Hk Hr Hv. rewrite (Hbase k Hr), (proj1 (Hlook k Hk)), Hv. reflexivity.
    + intros k v Hk Hr Hv Hn.
      rewrite (Hbase k Hr), (proj1 (Hlook k Hk)), Hn, Hv. reflexivity.
    + intros k Hk Hr Hn1 Hn2.
      rewrite (Hbase k Hr), (proj1 (Hlook k Hk)), Hn1, Hn2. reflexivity.
Qed.

Lemma loadTheme_merge_order_witness :
  loadTheme (RT := decimal_runtime) polaris_loader record_property theme_value
            "polaris" "light" VNull []
  = merge_and_apply (RT := decimal_runtime) record_property theme_value
                    [primary_doc; shared_doc; empty_doc]
                    (theme_paths "polaris" "light") VNull []
  /\ exists folded,
       merge_fold [primary_doc; shared_doc; empty_doc] = Some folded
       /\ base (expanded (RT := decimal_runtime) folded) !! "--now-color--primary"
          = Some (VStr "1,2,3").
Proof.
  destruct (loadTheme_merge_order (RT := decimal_runtime) polaris_loader
              (list (string * value)) record_property theme_value
              "polaris" "light" primary_doc shared_doc empty_doc VNull []
              eq_refl eq_refl eq_refl) as (Hload & _ & Hover).
  split; [exact Hload|].
  destruct (merge_fold [primary_doc; shared_doc; empty_doc]) as [folded|] eqn:Hf;
    [|vm_compute in Hf; discriminate Hf].
  exists folded. split; [reflexivity|].
  destruct (Hover folded eq_refl) as (_ & _ & _ & _ & _ & Hshape & _).
  apply Hshape.
  - discriminate.
  - intros (cp & Hcp & _ & Hk).
    apply (role_name_not_generated ("--now-color--primary", 4%nat)).
    + apply elem_of_roles. right. eexists. split; [|reflexivity]. elem_of_list.
    + apply elem_of_all_scale_keys. eauto.
  - vm_compute. reflexivity.
  - vm_compute. reflexivity.
Defined.

(** C10: whatever the base string, well-formed or not, and whatever the
    non-negative integer [points], the scale has exactly [points] entries. *)
Theorem generateColorScale_has_points_entries `{RT : JSRuntime}
        (baseColor : string) (points : nat) :
  length (generateColorScale baseColor points) = points.
Proof. apply generateColorScale_length. Qed.

(** * Further properties of the code *)

(** ** merge and generateScales *)

Lemma merge_each_None (themes : list value) (merged : merged_theme) :
  merge_each merged themes = None <-> Exists (fun t => is_nullish t = true) themes.
Proof.
  revert merged. induction themes as [|t themes IH]; intros merged.
  - cbn [merge_each]. split; [discriminate|]. intros H. by apply Exists_nil in H.
  - rewrite merge_each_cons, Exists_cons. destruct (is_nullish t) eqn:Ht.
    + split; [by left|done].
    + rewrite IH. split; [by right|]. intros [?|?]; [discriminate|done].
Qed.

Section MoreScaleFacts.
Context {RT : JSRuntime}.

Lemma generated_count_ext (b b' : gmap string value) :
  (forall cp, cp ∈ roles -> b !! cp.1 = b' !! cp.1) ->
  generated_count b = generated_count b'.
Proof.
  unfold generated_count. generalize 0%nat as n.
  induction roles as [|cp l IH]; intros n H; cbn [foldl]; [done|].
  assert (scale_count b cp = scale_count b' cp) as ->.
  { unfold scale_count, eligible. rewrite (H cp); [done|by left]. }
  apply IH. intros cp' Hcp'. apply H. by right.
Qed.

Lemma generated_role_lookup (b : gmap string value) cp :
  cp ∈ roles -> (generated b ∪ b) !! cp.1 = b !! cp.1.
Proof.
  intros Hcp. apply lookup_union_r, generated_lookup_other.
  by apply role_name_not_generated.
Qed.

Lemma generated_idemp (b : gmap string value) :
  generated (generated b ∪ b) ∪ (generated b ∪ b) = generated b ∪ b.
Proof.
  rewrite (generated_ext (generated b ∪ b) b)
    by (intros cp Hcp; by apply generated_role_lookup).
  by rewrite (assoc_L (∪)), (idemp_L (∪)).
Qed.

(** Generating from the own entries of an expanded base adds nothing: a
    role that the expanded base holds itself was read with the same value
    when the base was expanded. *)
Lemma generated_absorbed (vis ob : gmap string value) :
  (forall cp v, cp ∈ roles -> ob !! cp.1 = Some v -> vis !! cp.1 = Some v) ->
  generated (generated vis ∪ ob) ∪ (generated vis ∪ ob) = generated vis ∪ ob.
Proof.
  intros Hvis. apply map_eq. intros k. rewrite lookup_union.
  destruct (generated (generated vis ∪ ob) !! k) as [v|] eqn:Hg;
    [|by rewrite (left_id_L None _)].
  assert (k ∈ dom (generated (generated vis ∪ ob))) as Hdom
    by (apply elem_of_dom; eauto).
  apply elem_of_dom_generated in Hdom as (cp & Hcp & He & Hk).
  apply eligible_string in He as (s & Hs & Hne).
  rewrite (generated_lookup_role _ cp k Hcp Hk),
          (scale_part_eligible _ cp s Hs Hne) in Hg.
  rewrite lookup_union_r in Hs
    by (by apply generated_lookup_other, role_name_not_generated).
  apply (Hvis cp _ Hcp) in Hs.
  assert (generated vis !! k = Some v) as Hv.
  { by rewrite (generated_lookup_role _ cp k Hcp Hk),
               (scale_part_eligible _ cp s Hs Hne). }
  rewrite lookup_union, Hv. by destruct (ob !! k).
Qed.
End MoreScaleFacts.

(** X1: [merge] throws exactly when one of the themes is [null] or
    [undefined]; any other sequence of values (documents that fail
    validation, arrays, strings and numbers included) is merged. *)
Theorem merge_throws_iff_nullish `{RT : JSRuntime} (themes : list value) :
  merge themes = None <-> Exists (fun t => is_nullish t = true) themes.
Proof.
  rewrite merge_eq, fmap_None. unfold merge_fold. apply merge_each_None.
Qed.

(** X2: scale generation is idempotent: running [generateScales] on its own
    result changes nothing and logs the same count. *)
Theorem generateScales_idempotent `{RT : JSRuntime} (t : theme) :
  generateScales (generateScales t).1 = generateScales t.
Proof.
  rewrite !generateScales_eq. cbn [fst base properties].
  rewrite generated_idemp. f_equal.
  apply generated_count_ext. intros cp Hcp. by apply generated_role_lookup.
Qed.

(** X3: a merged theme that has no key [__proto__] is a fixed point of
    [merge]: merging the result of a merge alone gives the same theme
    back. *)
Theorem merge_merged_alone `{RT : JSRuntime} (themes : list value) (m : theme) :
  merge themes = Some m ->
  base m !! "__proto__" = None ->
  properties m !! "__proto__" = None ->
  merge [theme_value m] = Some m.
Proof.
  rewrite !merge_eq. intros Hm. apply fmap_Some in Hm as (folded & _ & ->).
  rewrite expanded_eq. cbn [base properties]. intros Hb Hp.
  unfold merge_fold. rewrite merge_each_cons. cbn [merge_each is_nullish theme_value].
  cbn [fmap option_fmap option_map merged_base merged_properties].
  rewrite (assign_section_plain "base"), (assign_section_plain "properties");
    rewrite ?(proj1 (section_map_theme_value _)), ?(proj2 (section_map_theme_value _));
    cbn [base properties]; try assumption.
  cbn [new_object own proto]. rewrite !(right_id_L ∅ (∪)).
  rewrite expanded_eq. cbn [merged_base merged_properties own].
  fold (plain (generated (visible (merged_base folded)) ∪ own (merged_base folded))).
  rewrite visible_plain, generated_absorbed; [done|].
  intros cp v _ Hown. unfold visible. by apply lookup_union_Some_l.
Qed.

Lemma merge_merged_alone_witness :
  exists m, merge (RT := decimal_runtime) [primary_doc; shared_doc] = Some m
            /\ merge (RT := decimal_runtime) [theme_value m] = Some m.
Proof.
  assert ((merge (RT := decimal_runtime) [primary_doc; shared_doc]
             ≫= fun m => base m !! "__proto__") = None) as Hb
    by (vm_compute; reflexivity).
  assert ((merge (RT := decimal_runtime) [primary_doc; shared_doc]
             ≫= fun m => properties m !! "__proto__") = None) as Hp
    by (vm_compute; reflexivity).
  destruct (merge (RT := decimal_runtime) [primary_doc; shared_doc]) as [m|] eqn:Hm;
    [|vm_compute in Hm; discriminate Hm].
  exists m. split; [reflexivity|].
  exact (merge_merged_alone (RT := decimal_runtime) [primary_doc; shared_doc] m Hm Hb Hp).
Defined.

(** ** Merged themes and validation *)

Lemma filter_nil_iff (bad : string -> bool) (l : list string) :
  List.filter bad l = [] <-> forall k, k ∈ l -> bad k = false.
Proof.
  split.
  - intros Hnil k Hk. destruct (bad k) eqn:E; [|done].
    assert (List.filter bad l ≠ []) as Hne by (apply filter_nonempty; eauto).
    done.
  - intros H. destruct (List.filter bad l) as [|k ks] eqn:E; [done|].
    assert (In k (List.filter bad l)) as Hin by (rewrite E; by left).
    apply filter_In in Hin as [Hin Hbad]. apply list_elem_of_In in Hin.
    rewrite (H k Hin) in Hbad. discriminate Hbad.
Qed.

Lemma validate_is_Some (v : value) : is_Some (validate v).
Proof.
  destruct (negb (truthy v) || negb (String.eqb (typeof v) "object")) eqn:Hshape.
  - unfold validate. rewrite Hshape. by eexists.
  - apply orb_false_iff in Hshape as [Hv Ht].
    apply negb_false_iff in Hv, Ht. apply String.eqb_eq in Ht.
    destruct (object_sections v Hv Ht) as (b & p & Hb & Hp).
    rewrite (validate_object v b p Hv Ht Hb Hp). by eexists.
Qed.

Lemma validate_ok_inv (d : value) :
  validate d = Some {| valid := true; errors := [] |} ->
  is_nullish d = false
  /\ (forall k, k ∈ section_keys "base" d -> bad_base_key k = false)
  /\ (forall k, k ∈ section_keys "properties" d -> bad_property_key k = false).
Proof.
  destruct (negb (truthy d) || negb (String.eqb (typeof d) "object")) eqn:Hshape.
  { unfold validate. rewrite Hshape. discriminate. }
  apply orb_false_iff in Hshape as [Hv Ht].
  apply negb_false_iff in Hv, Ht. apply String.eqb_eq in Ht.
  destruct (object_sections d Hv Ht) as (b & p & Hb & Hp).
  rewrite (validate_object d b p Hv Ht Hb Hp). cbv zeta. intros [= _ Herrs].
  apply app_eq_nil in Herrs as [_ Herrs]. apply app_eq_nil in Herrs as [Heb Hep].
  apply map_eq_nil in Heb, Hep.
  split; [by apply truthy_not_nullish|]. unfold section_keys. rewrite Hb, Hp.
  split; by apply filter_nil_iff.
Qed.

Lemma dom_section_map name (d : value) (k : string) :
  k ∈ dom (section_map name d) -> k ∈ section_keys name d.
Proof.
  unfold section_map, section_keys. destruct (get_prop d name) as [s|].
  - destruct (truthy s).
    + intros Hdom. destruct (decide (k ∈ (own_entries s).*1)) as [|Hout]; [done|].
      apply entries_map_lookup_None, not_elem_of_dom in Hout. done.
    + by rewrite dom_empty, elem_of_empty.
  - by rewrite dom_empty, elem_of_empty.
Qed.

Lemma valid_has_no_proto_key (d : value) :
  validate d = Some {| valid := true; errors := [] |} ->
  section_map "base" d !! "__proto__" = None
  /\ section_map "properties" d !! "__proto__" = None.
Proof.
  intros Hd. apply validate_ok_inv in Hd as (_ & Hb & Hp).
  split; apply not_elem_of_dom; intros Hdom; apply dom_section_map in Hdom.
  - by apply Hb in Hdom.
  - by apply Hp in Hdom.
Qed.

Lemma last_defined_Some name k (themes : list value) v :
  last_defined name k themes = Some v ->
  exists d, d ∈ themes ∧ section_map name d !! k = Some v.
Proof.
  induction themes as [|t themes IH]; cbn [last_defined]; [discriminate|].
  destruct (last_defined name k themes) as [w|].
  - intros [= ->]. destruct (IH eq_refl) as (d & Hd & Hv). exists d. split; [by right|done].
  - intros Ht. exists t. split; [by left|done].
Qed.

Lemma scale_keys_are_custom (k : string) :
  k ∈ all_scale_keys -> bad_base_key k = false.
Proof.
  assert (forallb (fun k => negb (bad_base_key k)) all_scale_keys = true) as H
    by (vm_compute; reflexivity).
  rewrite forallb_forall in H. intros Hk. apply list_elem_of_In, H in Hk.
  by apply negb_true_iff in Hk.
Qed.

(** X4: merging documents that all pass validation gives a theme that
    passes validation, the generated scale entries included. *)
Theorem merge_of_valid_is_valid `{RT : JSRuntime} (themes : list value) :
  Forall (fun d => validate d = Some {| valid := true; errors := [] |}) themes ->
  exists m, merge themes = Some m
            /\ validate (theme_value m) = Some {| valid := true; errors := [] |}.
Proof.
  intros Hvalid.
  assert (Forall (fun t => is_nullish t = false) themes) as Hdocs.
  { eapply Forall_impl; [exact Hvalid|]. intros d Hd. apply validate_ok_inv in Hd. tauto. }
  destruct (merge_each_is_Some themes
              {| merged_base := new_object; merged_properties := new_object |} Hdocs)
    as [folded Hf]. fold (merge_fold themes) in Hf.
  destruct (merge_fold_plain themes folded Hf) as [Hb Hp].
  destruct Hb as [Hproto Hbase].
  { eapply Forall_impl; [exact Hvalid|]. intros d Hd.
    by apply valid_has_no_proto_key in Hd as [? _]. }
  destruct Hp as [_ Hprops].
  { eapply Forall_impl; [exact Hvalid|]. intros d Hd.
    by apply valid_has_no_proto_key in Hd as [_ ?]. }
  rewrite merge_eq, Hf. cbn [fmap option_fmap option_map]. eexists. split; [reflexivity|].
  rewrite expanded_eq, (visible_default _ Hproto).
  set (fb := own (merged_base folded)) in *.
  set (fp := own (merged_properties folded)) in *.
  rewrite (validate_object _ (VObj (map_to_list (generated fb ∪ fb)))
                             (VObj (map_to_list fp))); try reflexivity.
  cbv zeta. cbn [truthy negb andb own_entries].
  assert (List.filter bad_base_key (map_to_list (generated fb ∪ fb)).*1 = []) as ->.
  { apply filter_nil_iff. intros k Hk.
    assert (k ∈ dom (generated fb ∪ fb)) as Hdom.
    { apply elem_of_dom. apply list_elem_of_fmap in Hk as ([k' x] & -> & Hkx).
      apply elem_of_map_to_list in Hkx. eauto. }
    rewrite dom_union, elem_of_union in Hdom. destruct Hdom as [Hg|Hb].
    - apply scale_keys_are_custom. apply elem_of_dom_generated in Hg as (cp & ? & _ & ?).
      apply elem_of_all_scale_keys. eauto.
    - apply elem_of_dom in Hb as [v Hv]. unfold fb in Hv. rewrite Hbase in Hv.
      apply last_defined_Some in Hv as (d & Hd & Hv).
      rewrite Forall_forall in Hvalid. apply Hvalid, validate_ok_inv in Hd as (_ & Hgood & _).
      apply Hgood, dom_section_map, elem_of_dom. eauto. }
  assert (List.filter bad_property_key (map_to_list fp).*1 = []) as ->.
  { apply filter_nil_iff. intros k Hk.
    apply list_elem_of_fmap in Hk as ([k' x] & -> & Hkx).
    apply elem_of_map_to_list in Hkx. cbn [fst snd] in *.
    unfold fp in Hkx. rewrite Hprops in Hkx.
    apply last_defined_Some in Hkx as (d & Hd & Hv).
    rewrite Forall_forall in Hvalid. apply Hvalid, validate_ok_inv in Hd as (_ & _ & Hgood).
    apply Hgood, dom_section_map, elem_of_dom. eauto. }
  reflexivity.
Qed.

Lemma merge_of_valid_is_valid_witness :
  exists m, merge (RT := decimal_runtime) [primary_doc; shared_doc] = Some m
            /\ validate (theme_value m) = Some {| valid := true; errors := [] |}.
Proof.
  apply (merge_of_valid_is_valid (RT := decimal_runtime) [primary_doc; shared_doc]).
  repeat constructor.
Defined.

(** X5: in the result of [merge], the scale keys of every role that holds a
    non-empty string hold exactly the scale generated from that string,
    whatever the documents supplied under those keys. *)
Theorem merge_scale_entries `{RT : JSRuntime}
        (themes : list value) (m : theme) (c : string) (p : nat) (s : string) :
  merge themes = Some m ->
  (c, p) ∈ roles ->
  base m !! c = Some (VStr s) -> s ≠ "" ->
  forall i : nat, (i < p)%nat ->
    base m !! scale_key c i = VStr <$> generateColorScale s p !! i.
Proof.
  rewrite merge_eq. intros Hm Hcp Hc Hs i Hi.
  apply fmap_Some in Hm as (folded & _ & ->). rewrite expanded_eq in *. cbn [base] in *.
  rewrite lookup_union_r in Hc
    by (by apply generated_lookup_other, (role_name_not_generated (c, p))).
  assert (visible (merged_base folded) !! c = Some (VStr s)) as Hvis
    by (unfold visible; by apply lookup_union_Some_l).
  assert (is_Some (generateColorScale s p !! i)) as [e He].
  { apply lookup_lt_is_Some. by rewrite generateColorScale_length. }
  rewrite He. apply lookup_union_Some_l.
  rewrite (generated_lookup_role _ (c, p)); [|done|by apply elem_of_scale_keys].
  rewrite (scale_part_eligible _ (c, p) s Hvis Hs). cbn [fst snd].
  by rewrite scale_map_lookup, He.
Qed.

Lemma merge_scale_entries_witness :
  exists m, merge (RT := decimal_runtime)
                  [primary_doc;
                   VObj [("base", VObj [("--now-color--primary-1", VStr "9,9,9")])]]
            = Some m
            /\ base m !! scale_key "--now-color--primary" 1
               = VStr <$> generateColorScale (RT := decimal_runtime) "61,74,80" 4 !! 1%nat.
Proof.
  destruct (merge (RT := decimal_runtime)
              [primary_doc;
               VObj [("base", VObj [("--now-color--primary-1", VStr "9,9,9")])]])
    as [m|] eqn:Hm; [|vm_compute in Hm; discriminate Hm].
  exists m. split; [reflexivity|].
  apply (merge_scale_entries (RT := decimal_runtime) _ m "--now-color--primary" 4
           "61,74,80" Hm).
  - apply four_point_role. elem_of_list.
  - rewrite (proj1 (merge_lookup _ m "--now-color--primary" Hm ltac:(discriminate))).
    + vm_compute. reflexivity.
    + apply (role_name_not_generated ("--now-color--primary", 4%nat)).
      apply four_point_role. elem_of_list.
  - discriminate.
  - lia.
Defined.

(** ** generateColorScale at the edges *)

Lemma split_nonempty (sep : ascii) (s : string) : split sep s ≠ [].
Proof.
  induction s as [|c s IH]; cbn [split]; [done|].
  destruct (Ascii.eqb c sep); [done|]. by destruct (split sep s).
Qed.

Lemma split_app (sep : ascii) (a b : string) :
  split sep (a +:+ String sep b) = split sep a ++ split sep b.
Proof.
  induction a as [|c a IH]; simpl.
  - by rewrite Ascii.eqb_refl.
  - rewrite IH. destruct (Ascii.eqb c sep); [done|].
    destruct (split sep a) eqn:E; [by apply split_nonempty in E|done].
Qed.

(** X6: further comma-separated components after the third, an alpha value
    for instance, are ignored: the scale is that of the first three. *)
Theorem generateColorScale_ignores_extra `{RT : JSRuntime}
        (baseColor extra : string) (points : nat) :
  (3 <= length (split "," baseColor))%nat ->
  generateColorScale (baseColor +:+ "," +:+ extra) points
  = generateColorScale baseColor points.
Proof.
  intros Hlen. unfold generateColorScale.
  change ("," +:+ extra) with (String "," extra).
  rewrite split_app, map_app.
  rewrite !(lookup_app_l (map js_Number (split "," baseColor)))
    by (rewrite length_map; lia).
  reflexivity.
Qed.

Lemma generateColorScale_ignores_extra_witness :
  generateColorScale (RT := decimal_runtime) ("61,74,80" +:+ "," +:+ "128") 4
  = generateColorScale (RT := decimal_runtime) "61,74,80" 4.
Proof.
  apply (generateColorScale_ignores_extra (RT := decimal_runtime) "61,74,80" "128" 4).
  vm_compute. lia.
Defined.

(** X7: a base string without a comma has one channel only: nothing
    fails, and the second entry of the 4-point scale prints the two missing
    channels as [undefined]. *)
Theorem generateColorScale_missing_channels `{RT : JSRuntime} (baseColor : string) :
  no_comma baseColor = true ->
  generateColorScale baseColor 4 !! 1%nat
  = Some (js_ToString (js_Number baseColor) +:+ ",undefined,undefined").
Proof.
  intros H. unfold generateColorScale. rewrite (split_no_comma _ H). reflexivity.
Qed.

Lemma generateColorScale_missing_channels_witness :
  generateColorScale (RT := decimal_runtime) "61" 4 !! 1%nat
  = Some "61,undefined,undefined".
Proof.
  apply (generateColorScale_missing_channels (RT := decimal_runtime) "61"). reflexivity.
Defined.

(** X8: whatever the base string, a scale of [points] entries other than
    the 4-point one starts with white and, when it has at least two entries,
    ends with black. *)
Theorem ramp_ends `{RT : JSRuntime} (baseColor : string) (points : nat) :
  JSRuntimeLaws RT ->
  points ≠ 4%nat -> (2 <= points)%nat ->
  generateColorScale baseColor points !! 0%nat = Some "255,255,255"
  /\ generateColorScale baseColor points !! (points - 1)%nat = Some "0,0,0".
Proof.
  intros laws Hne Hge. unfold generateColorScale.
  destruct (Nat.eqb_spec points 4) as [?|_]; [done|].
  assert (has_value 255%float 255 = true) as H255 by (vm_compute; reflexivity).
  assert (has_value 0%float 0 = true) as H0 by (vm_compute; reflexivity).
  rewrite !list_lookup_fmap, !lookup_seq_lt by lia.
  cbn [fmap option_fmap option_map]. split; f_equal.
  - unfold ramp_channel. cbn [Nat.eqb Nat.add].
    exact (rgb_values laws _ _ _ _ _ _ H255 H255 H255).
  - unfold ramp_channel.
    destruct (Nat.eqb_spec (0 + (points - 1)) 0) as [?|_]; [lia|].
    destruct (Z.eqb_spec (Z.of_nat (0 + (points - 1))) (Z.of_nat points - 1)) as [_|?];
      [|lia].
    exact (rgb_values laws _ _ _ _ _ _ H0 H0 H0).
Qed.

Lemma ramp_ends_witness :
  generateColorScale (RT := decimal_runtime) "not a colour" 22 !! 0%nat
  = Some "255,255,255"
  /\ generateColorScale (RT := decimal_runtime) "not a colour" 22 !! (22 - 1)%nat
     = Some "0,0,0".
Proof.
  apply (ramp_ends (RT := decimal_runtime) "not a colour" 22 decimal_runtime_laws); lia.
Defined.

Lemma resolveValue_string (s : string) :
  resolveValue (VStr s)
  = if startsWith s "--" then VStr ("var(" +:+ s +:+ ")") else VStr s.
Proof. reflexivity. Qed.

(** X9: [resolveValue] is idempotent: a wrapped reference is not wrapped
    again. *)
Theorem resolveValue_idempotent (v : value) :
  resolveValue (resolveValue v) = resolveValue v.
Proof.
  destruct v as [| |b|x|s|items|fields]; try reflexivity.
  rewrite (resolveValue_string s). destruct (startsWith s "--") eqn:E.
  - reflexivity.
  - by rewrite resolveValue_string, E.
Qed.

(** ** Order and range of the generated colours *)

Lemma shades_ordered c :
  0 <= c <= 255 ->
  0 <= spec_darkest c /\ spec_darkest c <= spec_darker c /\ spec_darker c <= c
  /\ c <= spec_lightest c /\ spec_lightest c <= 255.
Proof.
  intros Hc.
  assert ((0 <=? spec_darkest c) && (spec_darkest c <=? spec_darker c)
          && (spec_darker c <=? c) && (c <=? spec_lightest c)
          && (spec_lightest c <=? 255) = true) as H.
  { revert c Hc.
    apply (channels_forall
             (fun c => (0 <=? spec_darkest c) && (spec_darkest c <=? spec_darker c)
                       && (spec_darker c <=? c) && (c <=? spec_lightest c)
                       && (spec_lightest c <=? 255))).
    vm_compute. reflexivity. }
  rewrite !andb_true_iff, !Z.leb_le in H. tauto.
Qed.

Lemma ramp_entry_decreasing (i : nat) c :
  (i < 21)%nat -> 0 <= c <= 255 -> ramp_entry (S i) c <= ramp_entry i c.
Proof.
  intros Hi Hc.
  assert (forallb (fun i => ramp_entry (S i) c <=? ramp_entry i c) (seq 0 21) = true)
    as H.
  { revert c Hc.
    apply (channels_forall
             (fun c => forallb (fun i => ramp_entry (S i) c <=? ramp_entry i c)
                               (seq 0 21))).
    vm_compute. reflexivity. }
  rewrite forallb_forall in H. apply Z.leb_le, H, in_seq. lia.
Qed.

(** X10: for a base colour with channels in [0,255], the four entries of
    the 4-point scale are colours with channels in [0,255], and per channel
    the first entry is at least the base, the third at most the base and the
    fourth at most the third. *)
Theorem four_point_scale_ordered `{RT : JSRuntime} (r g b : Z) :
  JSRuntimeLaws RT ->
  0 <= r <= 255 -> 0 <= g <= 255 -> 0 <= b <= 255 ->
  exists lightest darker darkest : Z -> Z,
    generateColorScale (triple r g b) 4
    = [ triple (lightest r) (lightest g) (lightest b);
        triple r g b;
        triple (darker r) (darker g) (darker b);
        triple (darkest r) (darkest g) (darkest b) ]
    /\ Forall (fun c => 0 <= darkest c /\ darkest c <= darker c /\ darker c <= c
                        /\ c <= lightest c /\ lightest c <= 255) [r; g; b].
Proof.
  intros laws Hr Hg Hb. exists spec_lightest, spec_darker, spec_darkest.
  split; [by apply four_point_scale|].
  repeat constructor; by apply shades_ordered.
Qed.

Lemma four_point_scale_ordered_witness :
  exists lightest darker darkest : Z -> Z,
    generateColorScale (RT := decimal_runtime) (triple 61 74 80) 4
    = [ triple (lightest 61) (lightest 74) (lightest 80);
        triple 61 74 80;
        triple (darker 61) (darker 74) (darker 80);
        triple (darkest 61) (darkest 74) (darkest 80) ]
    /\ Forall (fun c => 0 <= darkest c /\ darkest c <= darker c /\ darker c <= c
                        /\ c <= lightest c /\ lightest c <= 255) [61; 74; 80].
Proof.
  apply (four_point_scale_ordered (RT := decimal_runtime) 61 74 80
           decimal_runtime_laws); lia.
Defined.

(** X11: for a base colour with channels in [0,255], every channel of the
    22-point ramp starts at 255, ends at 0 and never increases from one
    entry to the next. *)
Theorem neutral_ramp_decreasing `{RT : JSRuntime} (r g b : Z) :
  JSRuntimeLaws RT ->
  0 <= r <= 255 -> 0 <= g <= 255 -> 0 <= b <= 255 ->
  exists entry : nat -> Z -> Z,
    (forall i : nat, (i <= 21)%nat ->
       generateColorScale (triple r g b) 22 !! i
       = Some (triple (entry i r) (entry i g) (entry i b)))
    /\ Forall (fun c => entry 0%nat c = 255 /\ entry 21%nat c = 0
                        /\ forall i : nat, (i < 21)%nat -> entry (S i) c <= entry i c)
              [r; g; b].
Proof.
  intros laws Hr Hg Hb. exists ramp_entry. split.
  - intros i Hi. destruct (neutral_scale laws r g b Hr Hg Hb) as (H0 & H21 & Hmid).
    destruct (decide (i = 0%nat)) as [->|Hne0]; [exact H0|].
    destruct (decide (i = 21%nat)) as [->|Hne21]; [exact H21|].
    rewrite Hmid by lia. unfold ramp_entry.
    destruct (Nat.eqb_spec i 0) as [?|_]; [done|].
    by destruct (Nat.eqb_spec i 21) as [?|_].
  - repeat constructor; intros i Hi; by apply ramp_entry_decreasing.
Qed.

Lemma neutral_ramp_decreasing_witness :
  exists entry : nat -> Z -> Z,
    (forall i : nat, (i <= 21)%nat ->
       generateColorScale (RT := decimal_runtime) (triple 61 74 80) 22 !! i
       = Some (triple (entry i 61) (entry i 74) (entry i 80)))
    /\ Forall (fun c => entry 0%nat c = 255 /\ entry 21%nat c = 0
                        /\ forall i : nat, (i < 21)%nat -> entry (S i) c <= entry i c)
              [61; 74; 80].
Proof.
  apply (neutral_ramp_decreasing (RT := decimal_runtime) 61 74 80
           decimal_runtime_laws); lia.
Defined.

Lemma assign_section_absent name (o : object) (A B : value) :
  section_map name B !! "__proto__" = None ->
  proto_state (assign_section name (assign_section name o A) B)
  = proto_state (assign_section name (assign_section name o B) A).
Proof.
  intros HB.
  rewrite (assign_section_proto_state name (assign_section name o B) o A).
  - rewrite (assign_section_plain name _ B HB). unfold proto_state. cbn [own proto].
    by rewrite lookup_union_r.
  - rewrite (assign_section_plain name _ B HB). unfold proto_state. cbn [own proto].
    by rewrite lookup_union_r.
Qed.

Lemma assign_section_comm name (o : object) (A B : value) :
  dom (section_map name A) ## dom (section_map name B) ->
  assign_section name (assign_section name o A) B
  = assign_section name (assign_section name o B) A.
Proof.
  intros Hdisj. apply object_eq.
  - intros k Hk.
    repeat (rewrite assign_section_lookup by done; rewrite lookup_union).
    destruct (section_map name A !! k) as [a|] eqn:HA,
             (section_map name B !! k) as [b|] eqn:HB;
      try by destruct (own o !! k).
    exfalso. apply (Hdisj k); apply elem_of_dom; eauto.
  - destruct (section_map name B !! "__proto__") as [b|] eqn:HB.
    + destruct (section_map name A !! "__proto__") as [a|] eqn:HA.
      * exfalso. apply (Hdisj "__proto__"); apply elem_of_dom; eauto.
      * symmetry. by apply assign_section_absent.
    + by apply assign_section_absent.
Qed.

(** X12: two documents that define no key in common merge to the same
    theme in either order. *)
Theorem merge_disjoint_comm `{RT : JSRuntime} (A B : value) :
  dom (section_map "base" A) ## dom (section_map "base" B) ->
  dom (section_map "properties" A) ## dom (section_map "properties" B) ->
  merge [A; B] = merge [B; A].
Proof.
  intros Hb Hp. rewrite !merge_eq. unfold merge_fold.
  rewrite !merge_each_cons. cbn [merge_each].
  destruct (is_nullish A), (is_nullish B); try reflexivity.
  cbn [merged_base merged_properties].
  by rewrite (assign_section_comm "base" new_object A B Hb),
             (assign_section_comm "properties" new_object A B Hp).
Qed.

Lemma merge_disjoint_comm_witness :
  merge (RT := decimal_runtime)
        [primary_doc; VObj [("properties", VObj [("--now-gap", VStr "4px")])]]
  = merge (RT := decimal_runtime)
          [VObj [("properties", VObj [("--now-gap", VStr "4px")])]; primary_doc].
Proof.
  apply (merge_disjoint_comm (RT := decimal_runtime)).
  - assert (section_map "base" (VObj [("properties", VObj [("--now-gap", VStr "4px")])])
            = ∅) as -> by reflexivity.
    rewrite dom_empty_L. apply disjoint_empty_r.
  - assert (section_map "properties" primary_doc = ∅) as -> by reflexivity.
    rewrite dom_empty_L. apply disjoint_empty_l.
Defined.

(** ** The two serializers *)

Lemma mapM_snoc {A B} (f : A -> option B) (l : list A) (x : A) :
  mapM f (l ++ [x]) = ys ← mapM f l; y ← f x; Some (ys ++ [y]).
Proof.
  induction l as [|a l IH]; cbn [mapM app].
  - cbn. by destruct (f x).
  - rewrite IH. cbn. destruct (f a); cbn; [|done].
    destruct (mapM f l); cbn; [|done]. by destruct (f x).
Qed.

Lemma mapM_app_Some {A B} (f : A -> option B) (l1 l2 : list A) :
  mapM f (l1 ++ l2) = ys ← mapM f l1; zs ← mapM f l2; Some (ys ++ zs).
Proof.
  induction l1 as [|a l1 IH]; cbn [mapM app].
  - cbn. by destruct (mapM f l2).
  - rewrite IH. cbn. destruct (f a); cbn; [|done].
    destruct (mapM f l1); cbn; [|done]. by destruct (mapM f l2).
Qed.

Section SerializerFacts.
Context {RT : JSRuntime}.

Lemma parse_base_lines (entries : list (string * value)) (cssVars : list string)
      (vars : gmap string value) :
  (parse_base entries cssVars vars).2
  = (fun lines => cssVars ++ lines) <$> declaration_lines (List.filter not_isDark entries).
Proof.
  unfold declaration_lines.
  revert cssVars vars. induction entries as [|[k v] entries IH]; intros cssVars vars.
  - cbn. by rewrite app_nil_r.
  - cbn [parse_base List.filter]. unfold not_isDark at 1. cbn [fst].
    destruct (String.eqb k "isDark"); cbn [negb].
    + apply IH.
    + cbn [mapM fst snd]. destruct (js_String v) as [text|]; cbn; [|done].
      rewrite IH. destruct (mapM _ _); cbn; [|done]. by rewrite <-app_assoc.
Qed.

Lemma parse_properties_lines (entries : list (string * value)) (cssVars : list string) :
  parse_properties entries cssVars
  = (fun lines => cssVars ++ lines)
      <$> declaration_lines (map (fun kv : string * value => (kv.1, resolveValue kv.2))
                                 entries).
Proof.
  unfold declaration_lines.
  revert cssVars. induction entries as [|[k v] entries IH]; intros cssVars.
  - cbn. by rewrite app_nil_r.
  - cbn [parse_properties map mapM fst snd].
    destruct (js_String (resolveValue v)) as [text|]; cbn; [|done].
    rewrite IH. destruct (mapM _ _); cbn; [|done]. by rewrite <-app_assoc.
Qed.

Lemma section_entries_falsy name doc s :
  get_prop doc name = Some s -> truthy s = false -> section_entries name doc = [].
Proof. intros H Hs. unfold section_entries. rewrite H. by apply falsy_no_entries. Qed.

Lemma parse_text (doc : value) :
  is_nullish doc = false ->
  (parse doc).2 = css_text <$> declaration_lines (theme_declarations doc).
Proof.
  intros Hdoc.
  assert (exists b p, get_prop doc "base" = Some b ∧ get_prop doc "properties" = Some p)
    as (b & p & Hb & Hp) by (destruct doc; try done; cbn [get_prop]; eauto).
  assert (section_entries "base" doc = own_entries b) as Eb
    by (unfold section_entries; by rewrite Hb).
  assert (section_entries "properties" doc = own_entries p) as Ep
    by (unfold section_entries; by rewrite Hp).
  unfold parse, theme_declarations, declaration_lines. rewrite Hb, Hp, Eb, Ep.
  fold not_isDark. rewrite mapM_app_Some.
  assert ((if truthy b
           then match Object_entries b with
                | Some entries => parse_base entries [] ∅
                | None => (∅, None)
                end
           else (∅, Some [])).2
          = declaration_lines (List.filter not_isDark (own_entries b))) as Hbase.
  { destruct (truthy b) eqn:Tb.
    - unfold Object_entries. rewrite (truthy_not_nullish _ Tb), parse_base_lines.
      by destruct (declaration_lines _).
    - by rewrite (falsy_no_entries _ Tb). }
  destruct (if truthy b then _ else _) as [vars r]. cbn [snd] in *. rewrite Hbase.
  unfold declaration_lines.
  destruct (mapM _ (List.filter not_isDark (own_entries b))) as [lines|];
    cbn [fmap option_fmap option_map mbind option_bind]; [|done].
  assert ((if truthy p
           then entries ← Object_entries p; parse_properties entries lines
           else Some lines)
          = (fun more => lines ++ more)
              <$> declaration_lines
                    (map (fun kv : string * value => (kv.1, resolveValue kv.2))
                         (own_entries p))) as ->.
  { destruct (truthy p) eqn:Tp.
    - unfold Object_entries. rewrite (truthy_not_nullish _ Tp). cbn [mbind option_bind].
      apply parse_properties_lines.
    - rewrite (falsy_no_entries _ Tp). cbn. by rewrite app_nil_r. }
  unfold declaration_lines. by destruct (mapM _ _).
Qed.
End SerializerFacts.

Section ApplyFacts.
Context {style : Type} (setProperty : string -> value -> style -> option style).

Lemma set_all_app (l1 l2 : list (string * value)) (root : style) :
  set_all setProperty (l1 ++ l2) root
  = match set_all setProperty l1 root with
    | (root, Some _) => set_all setProperty l2 root
    | (root, None) => (root, None)
    end.
Proof.
  revert root. induction l1 as [|[k v] l1 IH]; intros root; cbn [set_all app]; [done|].
  destruct (setProperty k v root); [apply IH|done].
Qed.

Lemma apply_base_eq (entries : list (string * value)) (root : style) :
  apply_base setProperty entries root
  = set_all setProperty (List.filter not_isDark entries) root.
Proof.
  revert root. induction entries as [|[k v] entries IH]; intros root; [done|].
  cbn [apply_base List.filter]. unfold not_isDark at 1. cbn [fst].
  destruct (String.eqb k "isDark"); cbn [negb].
  - apply IH.
  - cbn [set_all]. destruct (setProperty k v root); [apply IH|done].
Qed.

Lemma apply_properties_eq (entries : list (string * value)) (root : style) :
  apply_properties setProperty entries root
  = set_all setProperty (map (fun kv : string * value => (kv.1, resolveValue kv.2)) entries)
            root.
Proof.
  revert root. induction entries as [|[k v] entries IH]; intros root; [done|].
  cbn [apply_properties map set_all fst snd].
  assert (match v with
          | VStr s => if startsWith s "--" then VStr ("var(" +:+ s +:+ ")") else v
          | _ => v
          end = resolveValue v) as -> by (by destruct v).
  destruct (setProperty k (resolveValue v) root); [apply IH|done].
Qed.

Lemma applyTheme_calls (doc : value) (root : style) :
  is_nullish doc = false ->
  applyTheme setProperty doc root = set_all setProperty (theme_declarations doc) root.
Proof.
  intros Hdoc.
  assert (exists b p, get_prop doc "base" = Some b ∧ get_prop doc "properties" = Some p)
    as (b & p & Hb & Hp) by (destruct doc; try done; cbn [get_prop]; eauto).
  unfold applyTheme, theme_declarations. rewrite Hb, Hp. fold not_isDark.
  rewrite set_all_app.
  assert ((if truthy b
           then match Object_entries b with
                | Some entries => apply_base setProperty entries root
                | None => (root, None)
                end
           else (root, Some ()))
          = set_all setProperty (List.filter not_isDark (section_entries "base" doc)) root)
    as ->.
  { destruct (truthy b) eqn:Eb.
    - unfold Object_entries, section_entries. rewrite (truthy_not_nullish _ Eb), Hb.
      apply apply_base_eq.
    - by rewrite (section_entries_falsy _ _ _ Hb Eb). }
  destruct (set_all setProperty _ root) as [root' [[]|]]; [|done].
  destruct (truthy p) eqn:Ep.
  - unfold Object_entries, section_entries. rewrite (truthy_not_nullish _ Ep), Hp.
    apply apply_properties_eq.
  - by rewrite (section_entries_falsy _ _ _ Hp Ep).
Qed.
End ApplyFacts.

(** X13: [parse] and [applyTheme] serialize the same declarations in the
    same order: the base entries other than [isDark], unchanged, then the
    properties entries, a reference wrapped in [var()] as [resolveValue]
    does.  [parse] prints one line per declaration, [applyTheme] makes one
    [setProperty] call per declaration. *)
Theorem parse_and_applyTheme_agree `{RT : JSRuntime} (doc : value) :
  is_nullish doc = false ->
  (parse doc).2 = css_text <$> declaration_lines (theme_declarations doc)
  /\ forall (style : Type) (setProperty : string -> value -> style -> option style)
            (root : style),
       applyTheme setProperty doc root
       = set_all setProperty (theme_declarations doc) root.
Proof.
  intros Hdoc. split; [by apply parse_text|].
  intros style setProperty root. by apply applyTheme_calls.
Qed.

Lemma parse_and_applyTheme_agree_witness :
  (parse (RT := decimal_runtime) shared_doc).2
  = css_text <$> declaration_lines (RT := decimal_runtime) (theme_declarations shared_doc)
  /\ forall (style : Type) (setProperty : string -> value -> style -> option style)
            (root : style),
       applyTheme setProperty shared_doc root
       = set_all setProperty (theme_declarations shared_doc) root.
Proof. exact (parse_and_applyTheme_agree (RT := decimal_runtime) shared_doc eq_refl). Defined.

Lemma js_String_primitive `{RT : JSRuntime} (v : value) :
  is_primitive v = true -> is_Some (js_String v).
Proof. destruct v; try discriminate; intros _; by eexists. Qed.

Lemma resolveValue_primitive (v : value) :
  is_primitive v = true -> is_primitive (resolveValue v) = true.
Proof.
  destruct v as [| |b|x|s|items|fields]; try done.
  intros _. rewrite resolveValue_string. by destruct (startsWith s "--").
Qed.

(** X14: [parse] throws exactly when the theme is [null] or [undefined], or
    when one of its declarations has a value that cannot be converted to a
    string; it returns the CSS text whenever every declared value is a
    string, a number, a boolean or [null]. *)
Theorem parse_throws_iff `{RT : JSRuntime} (doc : value) :
  ((parse doc).2 = None <->
     is_nullish doc = true
     ∨ Exists (fun kv : string * value => js_String kv.2 = None) (theme_declarations doc))
  /\ (is_nullish doc = false ->
      Forall (fun kv : string * value => is_primitive kv.2 = true)
             (theme_declarations doc) ->
      is_Some (parse doc).2).
Proof.
  destruct (is_nullish doc) eqn:Hdoc.
  - split; [|done]. split; [by left|]. intros _. by destruct doc.
  - rewrite (parse_text doc Hdoc), fmap_None. unfold declaration_lines.
    rewrite mapM_None. split.
    + split.
      * intros H. right. eapply Exists_impl; [exact H|]. intros kv Hkv.
        by apply fmap_None in Hkv.
      * intros [?|H]; [done|]. eapply Exists_impl; [exact H|]. intros kv Hkv.
        by apply fmap_None.
    + intros _ Hprim. apply fmap_is_Some, mapM_is_Some.
      eapply Forall_impl; [exact Hprim|]. intros kv Hkv. cbn.
      by apply fmap_is_Some, js_String_primitive.
Qed.

Lemma declaration_lines_strings `{RT : JSRuntime} (decls : list (string * value)) :
  Forall (fun kv : string * value => exists s, kv.2 = VStr s) decls ->
  declaration_lines decls
  = Some (map (fun kv : string * value => css_line kv.1 (string_text kv.2)) decls).
Proof.
  unfold declaration_lines. induction 1 as [|[k v] decls [s Hs] _ IH]; [done|].
  cbn [mapM fst snd map] in *. subst v. cbn. by rewrite IH.
Qed.

(** X15: for a theme whose values are all strings, [parse] of the merged
    object prints exactly one line per base entry other than [isDark], with
    the value as it is, and one line per properties entry, with a reference
    wrapped in [var()]. *)
Theorem parse_string_theme `{RT : JSRuntime} (t : theme) :
  (forall k v, base t !! k = Some v -> exists s, v = VStr s) ->
  (forall k v, properties t !! k = Some v -> exists s, v = VStr s) ->
  exists lines,
    (parse (theme_value t)).2 = Some (css_text lines)
    /\ (forall k s, k ≠ "isDark" -> base t !! k = Some (VStr s) ->
                    css_line k s ∈ lines)
    /\ (forall k s, properties t !! k = Some (VStr s) ->
                    css_line k (string_text (resolveValue (VStr s))) ∈ lines)
    /\ (forall line, line ∈ lines ->
          (exists k s, k ≠ "isDark" ∧ base t !! k = Some (VStr s) ∧ line = css_line k s)
          ∨ (exists k s, properties t !! k = Some (VStr s)
                         ∧ line = css_line k (string_text (resolveValue (VStr s))))).
Proof.
  intros Hbase Hprops.
  assert (theme_declarations (theme_value t)
          = List.filter not_isDark (map_to_list (base t))
            ++ map (fun kv : string * value => (kv.1, resolveValue kv.2))
                   (map_to_list (properties t))) as Hdecls by reflexivity.
  rewrite (parse_text (theme_value t) eq_refl), Hdecls.
  rewrite declaration_lines_strings.
  2:{ apply Forall_app. split; apply Forall_forall.
      - intros [k v] Hkv. apply list_elem_of_In, filter_In in Hkv as [Hkv _].
        apply list_elem_of_In, elem_of_map_to_list in Hkv. by apply (Hbase k).
      - intros [k v] Hkv. apply list_elem_of_fmap in Hkv as ([k' v'] & [= -> ->] & Hkv).
        apply elem_of_map_to_list, Hprops in Hkv as [s ->]. cbn [snd].
        rewrite resolveValue_string. destruct (startsWith s "--"); eauto. }
  eexists. split; [reflexivity|]. rewrite map_app. split; [|split].
  - intros k s Hk Hks. apply elem_of_app. left.
    apply list_elem_of_fmap. exists (k, VStr s). split; [done|].
    apply list_elem_of_In, filter_In. split.
    + by apply list_elem_of_In, elem_of_map_to_list.
    + unfold not_isDark. cbn [fst]. by apply negb_true_iff, String.eqb_neq.
  - intros k s Hks. apply elem_of_app. right.
    apply list_elem_of_fmap. exists (k, resolveValue (VStr s)). split; [done|].
    apply list_elem_of_fmap. exists (k, VStr s). split; [done|].
    by apply elem_of_map_to_list.
  - intros line Hline. apply elem_of_app in Hline as [Hline|Hline].
    + left. apply list_elem_of_fmap in Hline as ([k v] & -> & Hkv).
      apply list_elem_of_In, filter_In in Hkv as [Hkv Hk].
      apply list_elem_of_In, elem_of_map_to_list in Hkv.
      destruct (Hbase k v Hkv) as [s ->]. exists k, s. split; [|done].
      unfold not_isDark in Hk. cbn [fst] in Hk. by apply negb_true_iff, String.eqb_neq in Hk.
    + right. apply list_elem_of_fmap in Hline as ([k v] & -> & Hkv).
      apply list_elem_of_fmap in Hkv as ([k' v'] & [= -> ->] & Hkv).
      apply elem_of_map_to_list in Hkv. destruct (Hprops k' v' Hkv) as [s ->].
      exists k', s. done.
Qed.

Lemma parse_string_theme_witness :
  exists lines,
    (parse (RT := decimal_runtime)
           (theme_value {| base := two_roles_base; properties := ∅ |})).2
    = Some (css_text lines)
    /\ css_line "--now-color--link" "0,0,255" ∈ lines.
Proof.
  destruct (parse_string_theme (RT := decimal_runtime)
              {| base := two_roles_base; properties := ∅ |})
    as (lines & Hparse & Hbase & _).
  - intros k v H. cbn [base] in H. unfold two_roles_base in H.
    apply lookup_insert_Some in H as [[_ <-]|[_ H]]; [by eexists|].
    apply lookup_singleton_Some in H as [_ <-]. by eexists.
  - intros k v H. cbn [properties] in H. by rewrite lookup_empty in H.
  - exists lines. split; [exact Hparse|]. apply Hbase; [discriminate|].
    cbn [base]. vm_compute. reflexivity.
Defined.

(** ** The loader and its cache *)

Lemma assoc_Map_set (k : string) (v : value) (m : list (string * value)) (k' : string) :
  assoc k' (Map_set k v m) = if String.eqb k' k then Some v else assoc k' m.
Proof.
  induction m as [|[k0 v0] m IH]; cbn [Map_set assoc].
  - by destruct (String.eqb k' k).
  - destruct (String.eqb_spec k k0) as [->|Hne]; cbn [assoc].
    + by destruct (String.eqb k' k0).
    + rewrite IH. destruct (String.eqb_spec k' k0) as [->|?]; [|done].
      destruct (String.eqb_spec k0 k) as [->|?]; done.
Qed.

Lemma Map_has_set (k : string) (v : value) (m : list (string * value)) :
  Map_has k (Map_set k v m) = true ∧ Map_get k (Map_set k v m) = v.
Proof.
  unfold Map_has, Map_get. rewrite assoc_Map_set, String.eqb_refl.
  split; [by apply bool_decide_eq_true_2|done].
Qed.

Lemma length_Map_set (k : string) (v : value) (m : list (string * value)) :
  length (Map_set k v m) = if Map_has k m then length m else S (length m).
Proof.
  unfold Map_has. induction m as [|[k0 v0] m IH]; cbn [Map_set assoc length]; [done|].
  destruct (String.eqb k k0); cbn [length]; [done|].
  rewrite IH. by destruct (bool_decide (is_Some (assoc k m))).
Qed.

Section LoaderFacts.
Variable fetch : string -> option value.

Lemma loadSingleTheme_is_preloaded (p : string) (L : loader) :
  is_preloaded L p = true ->
  exists d, preloaded L p = Some d ∧ loadSingleTheme fetch p L = (L, Some d).
Proof.
  intros Hp. unfold loadSingleTheme. rewrite Hp. unfold is_preloaded in Hp.
  destruct (preloaded L p) as [[d|name]|]; [| |discriminate].
  - exists (Document d). split; [done|].
    by destruct (validate_is_Some d) as [r ->].
  - by exists (Builtin name).
Qed.

Lemma loadSingleTheme_own (p : string) (L : loader) (d : value) :
  preloadedThemes L !! p = Some d -> truthy d = true ->
  loadSingleTheme fetch p L = (L, Some (Document d)).
Proof.
  intros Hp Hd.
  assert (preloaded L p = Some (Document d)) as Hpre by (unfold preloaded; by rewrite Hp).
  destruct (loadSingleTheme_is_preloaded p L) as (d' & Hd' & ->).
  - unfold is_preloaded. by rewrite Hpre.
  - congruence.
Qed.

Lemma loadSingleTheme_not_preloaded (p : string) (L : loader) :
  is_preloaded L p = false ->
  loadSingleTheme fetch p L
  = if enableCache L && Map_has (basePath L +:+ p) (cache L)
    then (L, Some (Document (Map_get (basePath L +:+ p) (cache L))))
    else match fetch (basePath L +:+ p) with
         | None => (L, None)
         | Some d =>
             ((if enableCache L
               then with_cache L (Map_set (basePath L +:+ p) d (cache L))
               else L), Some (Document d))
         end.
Proof.
  intros Hp. unfold loadSingleTheme. rewrite Hp. cbv zeta.
  destruct (enableCache L && Map_has _ _); [done|].
  destruct (fetch _) as [d|]; [|done]. by destruct (validate_is_Some d) as [r ->].
Qed.

Lemma loadSingleTheme_cases (p : string) (L : loader) :
  loadSingleTheme fetch p L = (L, None)
  ∨ exists d, (loadSingleTheme fetch p L).2 = Some d
              ∧ ((loadSingleTheme fetch p L).1 = L
                 ∨ exists doc, (loadSingleTheme fetch p L).1
                               = with_cache L (Map_set (basePath L +:+ p) doc (cache L))).
Proof.
  destruct (is_preloaded L p) eqn:Hpre.
  - destruct (loadSingleTheme_is_preloaded p L Hpre) as (d & _ & ->).
    right. exists d. auto.
  - rewrite (loadSingleTheme_not_preloaded p L Hpre).
    destruct (enableCache L && Map_has _ _); [right; eauto|].
    destruct (fetch _) as [d|]; [|by left].
    right. exists (Document d). destruct (enableCache L); eauto.
Qed.
End LoaderFacts.

Lemma is_preloaded_false (L : loader) (p : string) :
  is_preloaded L p = false <->
  (forall d, preloadedThemes L !! p = Some d -> truthy d = false)
  ∧ (preloadedThemes L !! p = None -> p ∉ Object_prototype_names).
Proof.
  unfold is_preloaded, preloaded. destruct (preloadedThemes L !! p) as [d|].
  - split; [intros H; split; [by intros ? [= <-]|done]|]. intros [H _]. by apply H.
  - destruct (decide (p ∈ Object_prototype_names)) as [Hin|Hout].
    + rewrite bool_decide_eq_true_2 by done. split; [done|]. intros [_ H]. by destruct H.
    + rewrite bool_decide_eq_false_2 by done. split; [|done]. intros _. by split.
Qed.

(** X16: with the cache enabled, a path that has been loaded once is
    answered from the cache from then on: a later load of the same path
    returns the same value whatever the network does, and leaves the loader
    as it is. *)
Theorem loadSingleTheme_cache_round_trip
        (fetch1 fetch2 : string -> option value) (p : string) (L L1 : loader) (d : loaded) :
  enableCache L = true ->
  loadSingleTheme fetch1 p L = (L1, Some d) ->
  loadSingleTheme fetch2 p L1 = (L1, Some d).
Proof.
  intros Hcache.
  destruct (is_preloaded L p) eqn:Hpre.
  { destruct (loadSingleTheme_is_preloaded fetch1 p L Hpre) as (d1 & Hd1 & ->).
    intros [= <- <-].
    destruct (loadSingleTheme_is_preloaded fetch2 p L Hpre) as (d2 & Hd2 & ->).
    congruence. }
  rewrite (loadSingleTheme_not_preloaded fetch1 p L Hpre), Hcache.
  cbn [andb]. destruct (Map_has (basePath L +:+ p) (cache L)) eqn:Hhas.
  - intros [= <- <-]. rewrite (loadSingleTheme_not_preloaded fetch2 p L Hpre), Hcache.
    cbn [andb]. by rewrite Hhas.
  - destruct (fetch1 _) as [d'|]; [|discriminate]. intros [= <- <-].
    rewrite (loadSingleTheme_not_preloaded fetch2 p); [|exact Hpre].
    cbn [with_cache enableCache basePath cache]. rewrite Hcache. cbn [andb].
    destruct (Map_has_set (basePath L +:+ p) d' (cache L)) as [-> ->]. reflexivity.
Qed.

Lemma loadSingleTheme_cache_round_trip_witness :
  exists L1,
    loadSingleTheme (fun _ => Some primary_doc) "colors.json" fresh_loader
    = (L1, Some (Document primary_doc))
    /\ loadSingleTheme (fun _ => None) "colors.json" L1 = (L1, Some (Document primary_doc)).
Proof.
  eexists. split; [reflexivity|].
  apply (loadSingleTheme_cache_round_trip (fun _ => Some primary_doc) (fun _ => None)
           "colors.json" fresh_loader); reflexivity.
Defined.

(** X17: [loadSingleTheme] throws exactly when the path finds nothing that
    counts as true in [preloadedThemes] (an own property with a falsy value,
    or no own property and a name that [Object.prototype] does not have), is
    not answered by the cache, and the fetch fails; the loader is then left
    as it was, so that a failure is never cached.  A path without an own
    property that names a member of [Object.prototype] returns that member
    and does not fetch. *)
Theorem loadSingleTheme_failure (fetch : string -> option value) (p : string) (L : loader) :
  ((loadSingleTheme fetch p L).2 = None <->
     (forall d, preloadedThemes L !! p = Some d -> truthy d = false)
     ∧ (preloadedThemes L !! p = None -> p ∉ Object_prototype_names)
     ∧ enableCache L && Map_has (basePath L +:+ p) (cache L) = false
     ∧ fetch (basePath L +:+ p) = None)
  /\ ((loadSingleTheme fetch p L).2 = None -> (loadSingleTheme fetch p L).1 = L)
  /\ (preloadedThemes L !! p = None -> p ∈ Object_prototype_names ->
      loadSingleTheme fetch p L = (L, Some (Builtin p))).
Proof.
  split; [|split].
  - assert ((loadSingleTheme fetch p L).2 = None <->
            is_preloaded L p = false
            ∧ enableCache L && Map_has (basePath L +:+ p) (cache L) = false
            ∧ fetch (basePath L +:+ p) = None) as ->.
    { destruct (is_preloaded L p) eqn:Hpre.
      + destruct (loadSingleTheme_is_preloaded fetch p L Hpre) as (d & _ & ->).
        cbn [snd]. split; [discriminate|]. by intros [? _].
      + rewrite (loadSingleTheme_not_preloaded fetch p L Hpre).
        destruct (enableCache L && Map_has _ _); cbn [snd].
        * split; [discriminate|]. by intros (_ & ? & _).
        * destruct (fetch _) as [d|]; cbn [snd]; [|done].
          split; [discriminate|]. by intros (_ & _ & ?). }
    rewrite is_preloaded_false. tauto.
  - destruct (loadSingleTheme_cases fetch p L) as [->|(d & -> & _)]; [done|discriminate].
  - intros Hown Hin.
    assert (preloaded L p = Some (Builtin p)) as Hpre.
    { unfold preloaded. by rewrite Hown, bool_decide_eq_true_2. }
    destruct (loadSingleTheme_is_preloaded fetch p L) as (d & Hd & ->).
    + unfold is_preloaded. by rewrite Hpre.
    + congruence.
Qed.

(** X18: with the cache disabled, a load never changes the loader, and a
    path that finds nothing in [preloadedThemes] is fetched on every load. *)
Theorem loadSingleTheme_cache_disabled
        (fetch : string -> option value) (p : string) (L : loader) :
  enableCache L = false ->
  (loadSingleTheme fetch p L).1 = L
  /\ (is_preloaded L p = false ->
      (loadSingleTheme fetch p L).2 = Document <$> fetch (basePath L +:+ p)).
Proof.
  intros Hcache. destruct (is_preloaded L p) eqn:Hpre.
  - destruct (loadSingleTheme_is_preloaded fetch p L Hpre) as (d & _ & ->). done.
  - rewrite (loadSingleTheme_not_preloaded fetch p L Hpre), Hcache. cbn [andb].
    by destruct (fetch _).
Qed.

Lemma loadSingleTheme_cache_disabled_witness :
  (loadSingleTheme (fun _ => Some primary_doc) "colors.json"
     (with_cache {| basePath := ""; enableCache := false; preloadedThemes := ∅;
                    cache := []; activeTheme := VNull |}
                 [("colors.json", shared_doc)])).2
  = Some (Document primary_doc).
Proof.
  apply (loadSingleTheme_cache_disabled (fun _ => Some primary_doc) "colors.json"
           (with_cache {| basePath := ""; enableCache := false; preloadedThemes := ∅;
                          cache := []; activeTheme := VNull |}
                       [("colors.json", shared_doc)])); reflexivity.
Defined.

(** X19: a load changes nothing of the loader but the cache, and of the
    cache nothing but the entry of the path it loads: no other entry is
    altered, no entry is removed, and at most one entry is added. *)
Theorem loadSingleTheme_cache_frame
        (fetch : string -> option value) (p : string) (L : loader) :
  let L' := (loadSingleTheme fetch p L).1 in
  basePath L' = basePath L /\ enableCache L' = enableCache L
  /\ preloadedThemes L' = preloadedThemes L /\ activeTheme L' = activeTheme L
  /\ (forall k, k ≠ basePath L +:+ p ->
        Map_has k (cache L') = Map_has k (cache L)
        ∧ Map_get k (cache L') = Map_get k (cache L))
  /\ (forall k, Map_has k (cache L) = true -> Map_has k (cache L') = true)
  /\ (length (cache L) <= length (cache L') <= S (length (cache L)))%nat.
Proof.
  cbv zeta.
  assert ((loadSingleTheme fetch p L).1 = L
          ∨ exists d, (loadSingleTheme fetch p L).1
                      = with_cache L (Map_set (basePath L +:+ p) d (cache L)))
    as [->|[d ->]].
  { destruct (loadSingleTheme_cases fetch p L) as [->|(d & _ & [?|?])]; auto. }
  - repeat split; auto with lia.
  - cbn [with_cache basePath enableCache preloadedThemes activeTheme cache].
    repeat split.
    + unfold Map_has. rewrite assoc_Map_set.
      by destruct (String.eqb_spec k (basePath L +:+ p)).
    + unfold Map_get. rewrite assoc_Map_set.
      by destruct (String.eqb_spec k (basePath L +:+ p)).
    + intros k Hk. unfold Map_has in *. rewrite assoc_Map_set.
      destruct (String.eqb k (basePath L +:+ p)); [by apply bool_decide_eq_true_2|done].
    + rewrite length_Map_set. destruct (Map_has _ _); lia.
    + rewrite length_Map_set. destruct (Map_has _ _); lia.
Qed.

(** X20: after [clearCache] the cache statistics are empty and a path that
    finds nothing in [preloadedThemes] is fetched again. *)
Theorem clearCache_forgets (fetch : string -> option value) (p : string) (L : loader) :
  is_preloaded L p = false ->
  getCacheStats (clearCache L) = (0%nat, [])
  /\ (loadSingleTheme fetch p (clearCache L)).2 = Document <$> fetch (basePath L +:+ p).
Proof.
  intros Hpre. split; [reflexivity|].
  rewrite (loadSingleTheme_not_preloaded fetch p (clearCache L)) by exact Hpre.
  cbn [clearCache with_cache enableCache cache basePath Map_has assoc].
  rewrite andb_false_r. by destruct (fetch _).
Qed.

Lemma clearCache_forgets_witness :
  (loadSingleTheme (fun _ => Some primary_doc) "colors.json"
     (clearCache (with_cache fresh_loader [("/static/colors.json", shared_doc)]))).2
  = Some (Document primary_doc).
Proof.
  apply (clearCache_forgets (fun _ => Some primary_doc) "colors.json"
           (with_cache fresh_loader [("/static/colors.json", shared_doc)])).
  reflexivity.
Defined.

(** X21: [loadAndApply] returns the loaded value exactly when the load and
    the application to the DOM both succeed; the path then becomes the active
    theme and the style is the one [applyTheme] leaves.  When it throws the
    active theme is the one before, and when it is the load that fails
    neither the loader nor the style has changed. *)
Theorem loadAndApply_outcome
        (fetch : string -> option value) (style : Type)
        (setProperty : string -> value -> style -> option style)
        (p : string) (L : loader) (root : style) :
  let r := loadAndApply fetch setProperty p L root in
  (forall d, r.2 = Some d <->
     (loadSingleTheme fetch p L).2 = Some d
     ∧ (applyTheme setProperty (document_of d) root).2 = Some ())
  /\ (forall d, r.2 = Some d ->
        r.1.1 = with_activeTheme (loadSingleTheme fetch p L).1 (VStr p)
        ∧ getActiveTheme r.1.1 = VStr p
        ∧ r.1.2 = (applyTheme setProperty (document_of d) root).1)
  /\ (r.2 = None -> getActiveTheme r.1.1 = getActiveTheme L)
  /\ ((loadSingleTheme fetch p L).2 = None -> r.1 = (L, root)).
Proof.
  cbv zeta. unfold loadAndApply, getActiveTheme.
  destruct (loadSingleTheme_cases fetch p L) as [->|(d & Hd & HL)].
  - cbn [fst snd]. repeat split; try done. by intros [? _].
  - destruct (loadSingleTheme fetch p L) as [L' [d'|]]; cbn [fst snd] in *; [|done].
    injection Hd as ->.
    assert (activeTheme L' = activeTheme L) as Hact by (by destruct HL as [->|[? ->]]).
    destruct (applyTheme setProperty (document_of d) root) as [root' [[]|]] eqn:Happly;
      cbn [fst snd].
    + split; [|split; [|split]]; [| |done|done].
      * intros d0. split.
        -- intros [= <-]. by rewrite Happly.
        -- by intros [[= <-] _].
      * intros d0 [= <-]. by rewrite Happly.
    + split; [|split; [|split]]; [|done|done|done].
      intros d0. split; [done|]. intros [[= <-] H]. by rewrite Happly in H.
Qed.

Section PreloadedFacts.
Context `{RT : JSRuntime}.
Variable fetch : string -> option value.

Lemma mapM_preloaded (L : loader) (paths : list string) (docs : list value) :
  mapM (fun p => preloadedThemes L !! p) paths = Some docs ->
  Forall (fun d => truthy d = true) docs ->
  mapM (fun p => document_of <$> (loadSingleTheme fetch p L).2) paths = Some docs
  ∧ Forall (fun p => (loadSingleTheme fetch p L).1 = L) paths.
Proof.
  revert docs. induction paths as [|p paths IH]; intros docs Hm Hd.
  - cbn in Hm. injection Hm as <-. split; [done|constructor].
  - rewrite mapM_Some in Hm. apply Forall2_cons_inv_l in Hm as (d & docs' & Hp & Hrest & ->).
    apply Forall_cons in Hd as [Ht Hd]. rewrite <- mapM_Some in Hrest.
    destruct (IH docs' Hrest Hd) as [IH1 IH2].
    split.
    + rewrite mapM_Some. constructor.
      * by rewrite (loadSingleTheme_own fetch p L d Hp Ht).
      * by rewrite <- mapM_Some.
    + constructor; [|done]. by rewrite (loadSingleTheme_own fetch p L d Hp Ht).
Qed.
End PreloadedFacts.

Lemma List_filter_Permutation {A} (f : A -> bool) (l l' : list A) :
  l ≡ₚ l' -> List.filter f l ≡ₚ List.filter f l'.
Proof.
  induction 1 as [|x l l' _ IH|x y l|l l' l'' _ IH1 _ IH2]; cbn [List.filter].
  - done.
  - destruct (f x); [by constructor|done].
  - destruct (f x), (f y); try done. apply perm_swap.
  - by etransitivity.
Qed.

Section ApplyMerged.
Context `{RT : JSRuntime}.
Variable style : Type.
Variable setProperty : string -> value -> style -> option style.
Variable enumerate : theme -> value.

(** Applying a merged theme makes one [setProperty] call for each of its
    declarations, in the order the merged object enumerates them. *)
Lemma applyTheme_merged (m : theme) (root : style) :
  enumerates enumerate ->
  exists decls,
    decls ≡ₚ theme_declarations (theme_value m)
    ∧ applyTheme setProperty (enumerate m) root = set_all setProperty decls root.
Proof.
  intros Henum. destruct (Henum m) as (bs & ps & Hm & Hbs & Hps).
  exists (theme_declarations (enumerate m)). split.
  - rewrite Hm. unfold theme_declarations, theme_value, section_entries.
    cbn [get_prop assoc String.eqb Ascii.eqb Bool.eqb default own_entries].
    apply Permutation_app; [by apply List_filter_Permutation|].
    by apply Permutation_map.
  - apply applyTheme_calls. by rewrite Hm.
Qed.

Lemma merge_and_apply_outcome (themes : list value) (paths : list string)
      (active : value) (root : style) :
  let r := merge_and_apply setProperty enumerate themes paths active root in
  (forall m, r.2 = Some m <->
     merge themes = Some m ∧ (applyTheme setProperty (enumerate m) root).2 = Some ())
  ∧ (forall m, r.2 = Some m ->
       r.1.1 = VArr (VStr <$> paths)
       ∧ r.1.2 = (applyTheme setProperty (enumerate m) root).1)
  ∧ (r.2 = None -> r.1.1 = active)
  ∧ (merge themes = None -> r.1.2 = root).
Proof.
  cbv zeta. unfold merge_and_apply.
  destruct (merge themes) as [merged|]; cbn [fst snd].
  - destruct (applyTheme setProperty (enumerate merged) root) as [root' [[]|]] eqn:Happly;
      cbn [fst snd].
    + split; [|split; [|split]]; [| |done|done].
      * intros m. split; [intros [= <-]; by rewrite Happly|by intros [[= <-] _]].
      * intros m [= <-]. by rewrite Happly.
    + split; [|split; [|split]]; [|done|done|done].
      intros m. split; [done|]. intros [[= <-] H]. by rewrite Happly in H.
  - split; [|split; [|split]]; [|done|done|done].
    intros m. split; [done|]. by intros [? _].
Qed.
End ApplyMerged.

(** X22: when every path of a theme set is preloaded with a document that
    counts as true, [loadThemeSet] merges the preloaded documents in the order
    of the paths and applies the result; the network and the cache play no
    part, and no load changes the loader.  The merged theme is returned
    exactly when [merge] and [applyTheme] succeed, the paths are then the
    active theme, and the active theme is unchanged when the call throws.
    On success the style has received one [setProperty] call for each
    declaration of the merged theme. *)
Theorem loadThemeSet_preloaded `{RT : JSRuntime}
        (fetch : string -> option value) (L : loader) (style : Type)
        (setProperty : string -> value -> style -> option style)
        (enumerate : theme -> value)
        (paths : list string) (docs : list value) (active : value) (root : style) :
  mapM (fun p => preloadedThemes L !! p) paths = Some docs ->
  Forall (fun d => truthy d = true) docs ->
  let r := loadThemeSet (fun p => document_of <$> (loadSingleTheme fetch p L).2)
                        setProperty enumerate paths active root in
  r = merge_and_apply setProperty enumerate docs paths active root
  /\ Forall (fun p => (loadSingleTheme fetch p L).1 = L) paths
  /\ (forall m, r.2 = Some m <->
        merge docs = Some m ∧ (applyTheme setProperty (enumerate m) root).2 = Some ())
  /\ (forall m, r.2 = Some m -> r.1.1 = VArr (VStr <$> paths))
  /\ (r.2 = None -> r.1.1 = active)
  /\ (enumerates enumerate ->
      forall m, r.2 = Some m ->
        exists decls, decls ≡ₚ theme_declarations (theme_value m)
                      ∧ set_all setProperty decls root = (r.1.2, Some ())).
Proof.
  intros Hm Hd. cbv zeta.
  destruct (mapM_preloaded fetch L paths docs Hm Hd) as [H1 H2].
  assert (loadThemeSet (fun p => document_of <$> (loadSingleTheme fetch p L).2)
                       setProperty enumerate paths active root
          = merge_and_apply setProperty enumerate docs paths active root) as ->.
  { unfold loadThemeSet. by rewrite H1. }
  destruct (merge_and_apply_outcome style setProperty enumerate docs paths active root)
    as (Hiff & Hsome & Hnone & _).
  split; [done|]. split; [exact H2|]. split; [exact Hiff|].
  split; [intros m Hr; by destruct (Hsome m Hr)|]. split; [exact Hnone|].
  intros Henum m Hr.
  destruct (applyTheme_merged style setProperty enumerate m root Henum)
    as (decls & Hperm & Happly).
  exists decls. split; [exact Hperm|]. rewrite <-Happly.
  destruct (Hsome m Hr) as [_ ->]. apply Hiff in Hr as [_ Hdone].
  destruct (applyTheme setProperty (enumerate m) root) as [root' done'].
  cbn [fst snd] in *. by rewrite Hdone.
Qed.

Lemma loadThemeSet_preloaded_witness :
  loadTheme (RT := decimal_runtime)
    (fun p => document_of <$> (loadSingleTheme (fun _ => None) p preloaded_loader).2)
    record_property theme_value "polaris" "light" VNull []
  = merge_and_apply (RT := decimal_runtime) record_property theme_value
      [primary_doc; shared_doc; marker_doc] (theme_paths "polaris" "light") VNull [].
Proof.
  apply (loadThemeSet_preloaded (RT := decimal_runtime) (fun _ => None) preloaded_loader
           (list (string * value)) record_property theme_value
           (theme_paths "polaris" "light")
           [primary_doc; shared_doc; marker_doc] VNull []).
  - vm_compute. reflexivity.
  - repeat constructor.
Defined.

(** ** The theme switcher: the current theme *)

Lemma concat_split (sep : ascii) (s : string) :
  String.concat (String sep EmptyString) (split sep s) = s.
Proof.
  induction s as [|c s IH]; [done|]. cbn [split].
  destruct (Ascii.eqb_spec c sep) as [->|Hne].
  - destruct (split sep s) as [|a l] eqn:E; [by apply split_nonempty in E|].
    cbn [String.concat] in *. rewrite IH. reflexivity.
  - destruct (split sep s) as [|a l] eqn:E; [by apply split_nonempty in E|].
    destruct l as [|b l]; cbn [String.concat] in *.
    + by rewrite IH.
    + by rewrite <- IH.
Qed.

Lemma string_length_app (a b : string) :
  String.length (a +:+ b) = (String.length a + String.length b)%nat.
Proof. induction a as [|c a IH]; simpl; [done|]. by f_equal. Qed.

Lemma string_app_inv_head (a x y : string) : a +:+ x = a +:+ y -> x = y.
Proof. induction a as [|c a IH]; cbn [String.append]; [done|]. intros [= H]. auto. Qed.

(** X23: the getter of [currentTheme] read after the setter gives back
    the text that was set exactly when that text holds one colon; whatever
    was set, it gives the first two pieces joined by a colon, with
    [undefined] for a missing second piece. *)
Theorem currentTheme_round_trip `{RT : JSRuntime} (text : string) (S : switcher) :
  (get_currentTheme (set_currentTheme text S) = Some text
   <-> length (split ":" text) = 2%nat)
  /\ (forall name rest, split ":" text = name :: rest ->
        get_currentTheme (set_currentTheme text S)
        = Some (name +:+ ":" +:+ default "undefined" (head rest))).
Proof.
  assert (forall name rest, split ":" text = name :: rest ->
            get_currentTheme (set_currentTheme text S)
            = Some (name +:+ ":" +:+ default "undefined" (head rest))) as Hget.
  { intros name rest E. unfold get_currentTheme, set_currentTheme. rewrite E.
    destruct rest as [|variant rest]; reflexivity. }
  split; [|exact Hget].
  pose proof (concat_split ":" text) as Hjoin.
  destruct (split ":" text) as [|name rest] eqn:E; [by apply split_nonempty in E|].
  rewrite (Hget name rest eq_refl).
  destruct rest as [|variant [|third rest]]; cbn [String.concat head default length] in *.
  - split; [|done]. intros [= H]. apply (f_equal String.length) in H.
    rewrite Hjoin, !string_length_app in H. simpl in H. lia.
  - split; [done|]. intros _. f_equal. exact Hjoin.
  - split; [|done]. intros [= H]. rewrite <- Hjoin in H.
    apply string_app_inv_head, string_app_inv_head in H.
    apply (f_equal String.length) in H.
    rewrite !string_length_app in H. simpl in H. lia.
Qed.
